(** * go_project_context_maker: the file-collection and rendering engine

    A shallow embedding of package [generator] (src/main.go): the pattern
    matcher ([splitPatterns], [matchAny]), the path expander
    ([expandSourceStarts]), the file collector ([collectFiles]), the tree
    builder and renderer ([insertPath], [renderTree], [renderNode],
    [sortedKeys]) and the orchestrator ([Generate]), together with the
    configuration records of src/internal/config/config.go.

    Go strings are byte strings: [string] is a list of bytes, and Go's
    string order (used by [sort.Strings]) is the bytewise lexicographic
    order [String.le].  Go maps are finite maps ([gmap]) and the set
    [map[string]struct{}] is a [gset string].  The functions of Go's
    standard library that depend on the platform or on Unicode tables are
    collected in the interface [GoLib]; the operating system is the
    interface [FileSystem], a state that [os.WriteFile] and [os.MkdirAll]
    change and that every read goes through. *)

From stdpp Require Import gmap strings list fin_maps sorting.
From Stdlib Require Import Ascii.

#[local] Set Warnings "-register-all,-clear-no-such-hyp".

(** ** Errors *)

(** A Go [error] value.  [SysError] is an error made by the standard
    library or the operating system; its flag says whether
    [errors.Is(err, os.ErrNotExist)] holds for it.  [Wrapped ctx e] is
    [fmt.Errorf(ctx + "%w", e)], and [NewError msg] is [errors.New(msg)] or
    a [fmt.Errorf] without [%w]. *)
Inductive error : Type :=
| SysError (not_exist : bool) (msg : string)
| Wrapped (context : string) (cause : error)
| NewError (msg : string).

#[global] Instance error_eq_dec : EqDecision error.
Proof. solve_decision. Defined.

(** [errors.Is(err, os.ErrNotExist)]: follows the [%w] chain. *)
Fixpoint is_not_exist (e : error) : bool :=
  match e with
  | SysError b _ => b
  | Wrapped _ cause => is_not_exist cause
  | NewError _ => false
  end.

(** The text of an error, [err.Error()]. *)
Fixpoint error_text (e : error) : string :=
  match e with
  | SysError _ msg => msg
  | Wrapped ctx cause => ctx +:+ error_text cause
  | NewError msg => msg
  end.

(** A Go result [(T, error)]. *)
Inductive result (A : Type) : Type :=
| Ok (a : A)
| Err (e : error).
Arguments Ok {A} a.
Arguments Err {A} e.

Definition is_ok {A} (r : result A) : bool :=
  match r with Ok _ => true | Err _ => false end.

(** ** Package [strings] *)

Module strings.

(** [strings.Split(s, string(sep))] for a one-byte separator: the pieces
    between the occurrences of [sep]; never empty. *)
Fixpoint Split (sep : ascii) (s : string) : list string :=
  match s with
  | EmptyString => [EmptyString]
  | String c rest =>
      if Ascii.eqb c sep then EmptyString :: Split sep rest
      else match Split sep rest with
           | [] => [String c EmptyString]
           | w :: ws => String c w :: ws
           end
  end.

(** [strings.ContainsAny(s, chars)] for [chars] made of ASCII bytes. *)
Fixpoint ContainsAny (s : string) (chars : list ascii) : bool :=
  match s with
  | EmptyString => false
  | String c rest => existsb (Ascii.eqb c) chars || ContainsAny rest chars
  end.

(** The six ASCII bytes of [unicode.IsSpace]. *)
Definition ascii_space (c : ascii) : bool :=
  match c with
  | "009" | "010" | "011" | "012" | "013" | " " => true
  | _ => false
  end%char.

(** The UTF-8 encodings of the two-byte white space runes U+0085 and
    U+00A0. *)
Definition space2 (c1 c2 : ascii) : bool :=
  match c1, c2 with
  | "194", "133" | "194", "160" => true
  | _, _ => false
  end%char.

(** The UTF-8 encodings of the three-byte white space runes U+1680,
    U+2000..U+200A, U+2028, U+2029, U+202F, U+205F and U+3000. *)
Definition space3 (c1 c2 c3 : ascii) : bool :=
  match c1, c2, c3 with
  | "225", "154", "128" => true
  | "226", "128", c =>
      let n := N_of_ascii c in
      ((128 <=? n) && (n <=? 138))%N || (n =? 168)%N || (n =? 169)%N
      || (n =? 175)%N
  | "226", "129", "159" => true
  | "227", "128", "128" => true
  | _, _, _ => false
  end%char.

(** [strings.TrimLeftFunc(s, unicode.IsSpace)]. *)
Fixpoint TrimLeftSpace (s : string) : string :=
  match s with
  | EmptyString => EmptyString
  | String c1 s1 =>
      if ascii_space c1 then TrimLeftSpace s1
      else match s1 with
           | EmptyString => s
           | String c2 s2 =>
               if space2 c1 c2 then TrimLeftSpace s2
               else match s2 with
                    | EmptyString => s
                    | String c3 s3 =>
                        if space3 c1 c2 c3 then TrimLeftSpace s3 else s
                    end
           end
  end.

(** The same scan on the reversed string, for the right end: the bytes of
    a rune come last byte first. *)
Fixpoint TrimLeftSpaceRev (s : string) : string :=
  match s with
  | EmptyString => EmptyString
  | String c1 s1 =>
      if ascii_space c1 then TrimLeftSpaceRev s1
      else match s1 with
           | EmptyString => s
           | String c2 s2 =>
               if space2 c2 c1 then TrimLeftSpaceRev s2
               else match s2 with
                    | EmptyString => s
                    | String c3 s3 =>
                        if space3 c3 c2 c1 then TrimLeftSpaceRev s3 else s
                    end
           end
  end.

(** [strings.TrimSpace]. *)
Definition TrimSpace (s : string) : string :=
  String.rev (TrimLeftSpaceRev (String.rev (TrimLeftSpace s))).

(** [strings.Join(elems, sep)]. *)
Definition Join (elems : list string) (sep : string) : string :=
  String.concat sep elems.

End strings.

(** [sort.Strings]: the sorted permutation of the slice, in Go's string
    order. *)
Definition sort_Strings (l : list string) : list string :=
  merge_sort String.le l.

(** [fmt]'s [%v] of a [[]string]. *)
Definition fmt_v (l : list string) : string :=
  "[" +:+ strings.Join l " " +:+ "]".

(** ** The standard library and the operating system *)

(** What the code uses of [path/filepath], and the two functions of
    [strings] and [fmt] that need Unicode tables. *)
Class GoLib : Type := {
  Separator : ascii;
  Clean : string → string;
  Join : string → string → string;
  IsAbs : string → bool;
  Base : string → string;
  Dir : string → string;
  Ext : string → string;
  Rel : string → string → result string;
  Match : string → string → bool * option error;
  ToLower : string → string;
  Quote : string → string;
}.

(** One call of the function that [filepath.WalkDir] is given: the path, the
    entry's name and kind, and the error the walker met there. *)
Record visit : Type := Visit {
  v_path : string;
  v_name : string;
  v_isDir : bool;
  v_err : option error;
}.

(** The file system.  [WalkVisits fs start] lists the calls that
    [filepath.WalkDir] makes from [start] for as long as the function it is
    given returns [nil]. *)
Class FileSystem (FS : Type) : Type := {
  Abs : FS → string → result string;
  Stat : FS → string → result bool;
  WalkVisits : FS → string → list visit;
  Glob : FS → string → result (list string);
  ReadFile : FS → string → result string;
  MkdirAll : FS → string → FS * option error;
  WriteFile : FS → string → string → FS * option error;
}.

(** ** Configuration (src/internal/config/config.go) *)

Record Source : Type := mkSource {
  Type_ : string;
  SourcePaths : list string;
  ExcludePaths : list string;
  FilePattern : string;
}.

Record Document : Type := mkDocument {
  Description : string;
  OutputPath : string;
  Sources : list Source;
}.

Record Config : Type := mkConfig {
  ProjectPath : string;
  Documents : list Document;
}.

(** [config.Default]. *)
Definition Default : Config :=
  {| ProjectPath := ".";
     Documents :=
       [ {| Description := "Project structure overview";
            OutputPath := "project-structure.md";
            Sources :=
              [ {| Type_ := "tree";
                   SourcePaths := ["src"; "migrations"; "templates"];
                   FilePattern := "*.php,*.twig";
                   ExcludePaths := ["vendor"; "node_modules"; ".git"] |};
                {| Type_ := "file";
                   SourcePaths := ["src"; "migrations"; "templates"];
                   FilePattern := "*.php,*.twig";
                   ExcludePaths := ["vendor"; "node_modules"; ".git"] |} ] |} ] |}.

(** ** The pattern matcher *)

(** [splitPatterns]: the loop appends each trimmed, non-empty part. *)
Definition splitPatterns (csv : string) : list string :=
  let parts := strings.Split "," csv in
  foldl (λ out p,
           let p := strings.TrimSpace p in
           if decide (p ≠ "") then out ++ [p] else out)
        [] parts.

(** The pattern list as the specification words it: split on commas, trim
    every entry, discard the empty ones. *)
Definition patterns_spec (csv : string) : list string :=
  filter (λ p, p ≠ "") (strings.TrimSpace <$> strings.Split "," csv).

Section generator.
Context `{GoLib}.

(** [filepath.ToSlash]. *)
Definition ToSlash (path : string) : string :=
  if Ascii.eqb Separator "/" then path
  else strings.Join (strings.Split Separator path) "/".

(** [matchAny]: the error of [filepath.Match] is dropped. *)
Fixpoint matchAny (patterns : list string) (name : string) : bool :=
  match patterns with
  | [] => false
  | p :: rest =>
      let '(ok, _) := Match p name in
      if ok then true else matchAny rest name
  end.

(** [hasGlob]. *)
Definition hasGlob (p : string) : bool :=
  strings.ContainsAny p ["*"; "?"; "["]%char.

(** The test both branches of [collectFiles] make before they include a
    file: [len(patterns) == 0 || matchAny(patterns, name)]. *)
Definition included (patterns : list string) (name : string) : bool :=
  (length patterns =? 0) || matchAny patterns name.

Context {FS : Type} `{FileSystem FS}.

(** [expandSourceStarts]: the loop over [dirs], with [out] as it stands. *)
Fixpoint expandLoop (fs : FS) (rootAbs : string) (dirs : list string)
    (out : list string) : result (list string) :=
  match dirs with
  | [] => Ok out
  | d :: rest =>
      let pat := if IsAbs d then d else Join rootAbs d in
      if hasGlob pat then
        match Glob fs pat with
        | Err e => Err (Wrapped ("glob " +:+ pat +:+ ": ") e)
        | Ok matches =>
            if length matches =? 0 then expandLoop fs rootAbs rest out
            else expandLoop fs rootAbs rest
                   (foldl (λ out m, out ++ [Clean m]) out matches)
        end
      else expandLoop fs rootAbs rest (out ++ [Clean pat])
  end.

Definition expandSourceStarts (fs : FS) (rootAbs : string)
    (dirs : list string) : result (list string) :=
  expandLoop fs rootAbs dirs [].

(** The function [collectFiles] passes to [filepath.WalkDir]. *)
Definition walkFn (rootAbs : string) (patterns : list string) (v : visit)
    (seen : gset string) : result (gset string) :=
  match v_err v with
  | Some walkErr => Err walkErr
  | None =>
      if v_isDir v then Ok seen
      else
        let name := v_name v in
        if included patterns name then
          match Rel rootAbs (v_path v) with
          | Err e => Err e
          | Ok rel => Ok ({[ ToSlash rel ]} ∪ seen)
          end
        else Ok seen
  end.

(** [filepath.WalkDir]: the calls are made in order and the first error the
    function returns ends the walk and is the walk's result.  ([walkFn]
    returns the walker's own error or the error of [filepath.Rel], never
    [SkipDir] or [SkipAll], so no call is left out.) *)
Fixpoint WalkDir (visits : list visit)
    (fn : visit → gset string → result (gset string))
    (seen : gset string) : result (gset string) :=
  match visits with
  | [] => Ok seen
  | v :: rest =>
      match fn v seen with
      | Err e => Err e
      | Ok seen' => WalkDir rest fn seen'
      end
  end.

(** The loop of [collectFiles] over the start points. *)
Fixpoint collectLoop (fs : FS) (rootAbs : string) (patterns : list string)
    (starts : list string) (seen : gset string) : result (gset string) :=
  match starts with
  | [] => Ok seen
  | start :: rest =>
      match Stat fs start with
      | Err err =>
          if is_not_exist err then collectLoop fs rootAbs patterns rest seen
          else Err (Wrapped ("stat " +:+ start +:+ ": ") err)
      | Ok false =>
          let name := Base start in
          if included patterns name then
            match Rel rootAbs start with
            | Err err => Err err
            | Ok rel =>
                collectLoop fs rootAbs patterns rest ({[ ToSlash rel ]} ∪ seen)
            end
          else collectLoop fs rootAbs patterns rest seen
      | Ok true =>
          match WalkDir (WalkVisits fs start) (walkFn rootAbs patterns) seen with
          | Err err => Err (Wrapped ("walk " +:+ start +:+ ": ") err)
          | Ok seen' => collectLoop fs rootAbs patterns rest seen'
          end
      end
  end.

(** [collectFiles].  The keys of [seen] are read in the order the map
    gives them and then sorted. *)
Definition collectFiles (fs : FS) (root : string) (dirs : list string)
    (patternCSV : string) : result (list string) :=
  match Abs fs root with
  | Err err => Err (Wrapped "resolve root: " err)
  | Ok rootAbs =>
      let patterns := splitPatterns patternCSV in
      match expandSourceStarts fs rootAbs dirs with
      | Err err => Err err
      | Ok starts =>
          match collectLoop fs rootAbs patterns starts ∅ with
          | Err err => Err err
          | Ok seen => Ok (sort_Strings (elements seen))
          end
      end
  end.

(** ** The tree builder and renderer *)

(** [tnode]: the name, the children by name, and the mark of a path's last
    segment.  The Go nodes are shared through pointers and changed in
    place; here a changed node is put back into its parent's map. *)
Inductive tnode : Type := TNode {
  name : string;
  children : gmap string tnode;
  isFile : bool;
}.

Definition newNode (name : string) : tnode :=
  {| name := name; children := ∅; isFile := false |}.

(** [n.isFile = true]. *)
Definition markFile (n : tnode) : tnode :=
  {| name := name n; children := children n; isFile := true |}.

(** The loop of [insertPath] from the node [cur] over the parts left;
    [i == len(parts)-1] holds when no part follows. *)
Fixpoint insertParts (cur : tnode) (parts : list string) : tnode :=
  match parts with
  | [] => cur
  | part :: rest =>
      let n := match children cur !! part with
               | Some n => n
               | None => newNode part
               end in
      let n := if decide (rest = []) then markFile n else n in
      {| name := name cur;
         children := <[part := insertParts n rest]> (children cur);
         isFile := isFile cur |}
  end.

(** [splitPath]. *)
Definition splitPath (p : string) : list string :=
  strings.Split Separator (Clean p).

Definition insertPath (root : tnode) (rel : string) : tnode :=
  insertParts root (splitPath rel).

(** [isDir]. *)
Definition isDir (n : tnode) : bool :=
  (0 <? size (children n)) && negb (isFile n).

(** [sortedKeys] over the pairs of the map in the order [range] gives
    them, which Go leaves open. *)
Definition sortedKeysOf (kvs : list (string * tnode)) (dirsFirst : bool)
    : list string :=
  if negb dirsFirst then
    sort_Strings (foldl (λ keys kv, keys ++ [kv.1]) [] kvs)
  else
    let df := foldl (λ (df : list string * list string) kv,
                       if isDir kv.2 then (df.1 ++ [kv.1], df.2)
                       else (df.1, df.2 ++ [kv.1]))
                    ([], []) kvs in
    sort_Strings df.1 ++ sort_Strings df.2.

Definition sortedKeys (m : gmap string tnode) (dirsFirst : bool)
    : list string :=
  sortedKeysOf (map_to_list m) dirsFirst.

(** The line feed. *)
Definition nl : string := String "010"%char EmptyString.

(** The loop [for i, name := range names] of [renderTree] and
    [renderNode]: [render name prefix last] is what the call for the child
    [name] writes, and [last] holds for the last name. *)
Fixpoint renderEach (render : string → string → bool → string)
    (names : list string) (prefix : string) : string :=
  match names with
  | [] => ""
  | name :: rest =>
      render name prefix (bool_decide (rest = []))
      +:+ renderEach render rest prefix
  end.

(** The call [renderNode(b, m[name], prefix, last)], where [sub] holds what
    each child of the map renders. *)
Definition renderChild (sub : gmap string (string → bool → string))
    (name prefix : string) (last : bool) : string :=
  match sub !! name with
  | Some r => r prefix last
  | None => ""
  end.

(** [renderNode]: the text written to the builder. *)
Fixpoint renderNode (n : tnode) (prefix : string) (isLast : bool) : string :=
  let branch := if isLast then "└── " else "├── " in
  let nextPrefix := if isLast then prefix +:+ "    " else prefix +:+ "│   " in
  if isDir n then
    (prefix +:+ branch +:+ name n +:+ "/" +:+ nl)
    +:+ (let names := sortedKeys (children n) true in
         renderEach (renderChild (renderNode <$> children n)) names nextPrefix)
  else
    prefix +:+ branch +:+ name n +:+ nl.

(** The tree [renderTree] builds from the paths. *)
Definition buildTree (paths : list string) : tnode :=
  foldl insertPath (newNode "") paths.

(** [renderTree]. *)
Definition renderTree (paths : list string) : string :=
  let root := buildTree paths in
  let names := sortedKeys (children root) true in
  renderEach (renderChild (renderNode <$> children root)) names "".

(** What a rendering shows, line by line and level by level: an entry is a
    line (its label, and whether it ends in a slash) with the entries
    written under it, in the order they are written. *)
Inductive entry : Type :=
| Entry (label : string) (slash : bool) (below : list entry).

Definition label (e : entry) : string := let 'Entry l _ _ := e in l.
Definition slash (e : entry) : bool := let 'Entry _ s _ := e in s.
Definition below (e : entry) : list entry := let 'Entry _ _ b := e in b.

(** The entries of the children called [names], in that order. *)
Definition entriesOf (sub : gmap string entry) (names : list string)
    : list entry :=
  omap (λ name, sub !! name) names.

(** The entry of a node, following [renderNode]. *)
Fixpoint layoutNode (n : tnode) : entry :=
  if isDir n then
    Entry (name n) true
      (entriesOf (layoutNode <$> children n) (sortedKeys (children n) true))
  else Entry (name n) false [].

Definition layoutTree (paths : list string) : list entry :=
  let root := buildTree paths in
  entriesOf (layoutNode <$> children root) (sortedKeys (children root) true).

(** The text of an entry and of a list of sibling entries. *)
Fixpoint printEntry (e : entry) (prefix : string) (isLast : bool) : string :=
  let 'Entry l s kids := e in
  let branch := if isLast then "└── " else "├── " in
  let nextPrefix := if isLast then prefix +:+ "    " else prefix +:+ "│   " in
  (prefix +:+ branch +:+ l +:+ (if s then "/" +:+ nl else nl))
  +:+ (fix printAll (es : list entry) : string :=
         match es with
         | [] => ""
         | e' :: rest =>
             printEntry e' nextPrefix (bool_decide (rest = []))
             +:+ printAll rest
         end) kids.

Fixpoint printEntries (es : list entry) (prefix : string) : string :=
  match es with
  | [] => ""
  | e :: rest =>
      printEntry e prefix (bool_decide (rest = [])) +:+ printEntries rest prefix
  end.

(** One level is in order: the entries with a slash come first, the
    others after, and the labels of each group ascend. *)
Definition level_ordered (es : list entry) : Prop :=
  ∃ dirs files,
    es = dirs ++ files
    ∧ Forall (λ e, slash e = true) dirs
    ∧ Forall (λ e, slash e = false) files
    ∧ StronglySorted String.le (label <$> dirs)
    ∧ StronglySorted String.le (label <$> files).

(** Every level under and including [es] is in order. *)
Fixpoint ordered_below (e : entry) : Prop :=
  let 'Entry _ _ kids := e in
  level_ordered kids
  ∧ (fix all (es : list entry) : Prop :=
       match es with
       | [] => True
       | e' :: rest => ordered_below e' ∧ all rest
       end) kids.

Definition all_levels_ordered (es : list entry) : Prop :=
  level_ordered es ∧ Forall ordered_below es.

(** The node at the end of a chain of names. *)
Fixpoint nodeAt (n : tnode) (parts : list string) : option tnode :=
  match parts with
  | [] => Some n
  | part :: rest =>
      match children n !! part with
      | Some c => nodeAt c rest
      | None => None
      end
  end.

(** ** The document renderer and the orchestrator *)

(** [detectLang]. *)
Definition detectLang (path : string) : string :=
  let ext := ToLower (Ext path) in
  if decide (ext = ".go") then "go"
  else if decide (ext = ".php") then "php"
  else if decide (ext = ".twig") then "twig"
  else if decide (ext = ".js") then "javascript"
  else if decide (ext = ".ts") then "typescript"
  else if decide (ext = ".json") then "json"
  else if decide (ext = ".yaml" ∨ ext = ".yml") then "yaml"
  else if decide (ext = ".md") then "md"
  else "".

(** [len(data) > 0 && data[len(data)-1] != '\n']. *)
Fixpoint lacksFinalNewline (data : string) : bool :=
  match data with
  | EmptyString => false
  | String c EmptyString => negb (Ascii.eqb c "010")
  | String _ rest => lacksFinalNewline rest
  end.

(** The loop [for _, rel := range files] of a "file" source; [b] is the
    text of the builder. *)
Fixpoint filesLoop (fs : FS) (projectRoot : string) (files : list string)
    (b : string) : result string :=
  match files with
  | [] => Ok b
  | rel :: rest =>
      let abs := Join projectRoot rel in
      match ReadFile fs abs with
      | Err err => Err (Wrapped ("read " +:+ rel +:+ ": ") err)
      | Ok data =>
          let b := b +:+ "### " +:+ rel +:+ nl +:+ nl in
          let lang := detectLang rel in
          let b := if decide (lang ≠ "") then b +:+ "```" +:+ lang +:+ nl
                   else b +:+ "```" +:+ nl in
          let b := b +:+ data in
          let b := if lacksFinalNewline data then b +:+ nl else b in
          let b := b +:+ "```" +:+ nl +:+ nl in
          filesLoop fs projectRoot rest b
      end
  end.

(** The loop [for _, src := range doc.Sources]. *)
Fixpoint sourcesLoop (fs : FS) (projectRoot : string) (srcs : list Source)
    (b : string) : result string :=
  match srcs with
  | [] => Ok b
  | src :: rest =>
      match collectFiles fs projectRoot (SourcePaths src) (FilePattern src) with
      | Err err =>
          Err (Wrapped ("collect files for " +:+ Quote (Type_ src) +:+ ": ") err)
      | Ok files =>
          let ty := ToLower (Type_ src) in
          if decide (ty = "tree") then
            if length files =? 0 then
              sourcesLoop fs projectRoot rest
                (b +:+ "```" +:+ nl +:+ "(no matches for "
                   +:+ Quote (FilePattern src) +:+ " in "
                   +:+ fmt_v (SourcePaths src) +:+ ")" +:+ nl
                   +:+ "```" +:+ nl +:+ nl)
            else
              let tree := renderTree files in
              sourcesLoop fs projectRoot rest
                (b +:+ "```" +:+ nl +:+ tree +:+ nl +:+ "```" +:+ nl +:+ nl)
          else if decide (ty = "file") then
            if length files =? 0 then
              sourcesLoop fs projectRoot rest
                (b +:+ "_No files matched " +:+ Quote (FilePattern src)
                   +:+ " under " +:+ fmt_v (SourcePaths src) +:+ "_"
                   +:+ nl +:+ nl)
            else
              match filesLoop fs projectRoot files b with
              | Err err => Err err
              | Ok b' => sourcesLoop fs projectRoot rest b'
              end
          else Err (NewError ("unknown source type: " +:+ Quote (Type_ src)))
      end
  end.

(** The builder before the sources: the description as a heading, if
    there is one. *)
Definition heading (doc : Document) : string :=
  if decide (Description doc ≠ "")
  then "# " +:+ Description doc +:+ nl +:+ nl else "".

(** The text of one document: the heading, then the sources. *)
Definition renderDocument (fs : FS) (projectRoot : string) (doc : Document)
    : result string :=
  sourcesLoop fs projectRoot (Sources doc) (heading doc).

(** The calls that change the file system, as a log. *)
Inductive event : Type :=
| EvMkdirAll (dir : string)
| EvWriteFile (path data : string).

(** [ensureDir]. *)
Definition ensureDir (fs : FS) (dir : string) : FS * list event * option error :=
  if decide (dir = "" ∨ dir = ".") then (fs, [], None)
  else
    match MkdirAll fs dir with
    | (fs', Some err) =>
        match Stat fs' dir with
        | Ok false =>
            (fs', [EvMkdirAll dir],
             Some (NewError ("path exists and is not a directory: " +:+ dir)))
        | _ => (fs', [EvMkdirAll dir], Some err)
        end
    | (fs', None) => (fs', [EvMkdirAll dir], None)
    end.

(** The body of the loop of [Generate] for one document. *)
Definition generateDocument (fs : FS) (projectRoot : string) (doc : Document)
    : FS * list event * option error :=
  match renderDocument fs projectRoot doc with
  | Err err => (fs, [], Some err)
  | Ok text =>
      match ensureDir fs (Dir (OutputPath doc)) with
      | (fs1, ev1, Some err) => (fs1, ev1, Some err)
      | (fs1, ev1, None) =>
          match WriteFile fs1 (OutputPath doc) text with
          | (fs2, Some err) =>
              (fs2, ev1 ++ [EvWriteFile (OutputPath doc) text],
               Some (Wrapped ("write output " +:+ OutputPath doc +:+ ": ") err))
          | (fs2, None) =>
              (fs2, ev1 ++ [EvWriteFile (OutputPath doc) text], None)
          end
      end
  end.

(** The loop [for _, doc := range c.Documents]. *)
Fixpoint generateLoop (fs : FS) (projectRoot : string) (docs : list Document)
    : FS * list event * option error :=
  match docs with
  | [] => (fs, [], None)
  | doc :: rest =>
      match generateDocument fs projectRoot doc with
      | (fs', ev, Some err) => (fs', ev, Some err)
      | (fs', ev, None) =>
          let '(fs'', ev', r) := generateLoop fs' projectRoot rest in
          (fs'', ev ++ ev', r)
      end
  end.

(** [Generate]. *)
Definition Generate (c : Config) (projectRoot : string) (fs : FS)
    : FS * list event * option error :=
  generateLoop fs projectRoot (Documents c).

(** The paths of the [os.WriteFile] calls of a log. *)
Definition writtenPaths (evs : list event) : list string :=
  omap (λ ev, match ev with
              | EvWriteFile path _ => Some path
              | EvMkdirAll _ => None
              end) evs.

End generator.

(** ** A Unix platform *)

(** [path/filepath] on Unix, where the separator is the slash and there are
    no volume names, worked out on the elements between the slashes; and
    the parts of [filepath.Match], [strings.ToLower] and [strconv.Quote]
    that bytes alone decide.  The examples below run on this instance. *)
Module unix.

Definition Separator : ascii := "/"%char.

(** [filepath.IsAbs]: the path starts with a slash. *)
Definition IsAbs (path : string) : bool :=
  match path with
  | String c _ => Ascii.eqb c "/"
  | EmptyString => false
  end.

(** The elements kept by [filepath.Clean], last one first: empty elements
    and [.] go, [..] takes back the element before it, and where there is
    none to take back it stays, unless the path is rooted. *)
Fixpoint cleanElems (rooted : bool) (elems kept : list string) : list string :=
  match elems with
  | [] => kept
  | e :: rest =>
      if decide (e = "" ∨ e = ".") then cleanElems rooted rest kept
      else if decide (e = "..") then
        let canBacktrack := match kept with
                            | top :: _ => bool_decide (top ≠ "..")
                            | [] => false
                            end in
        if canBacktrack then cleanElems rooted rest (tail kept)
        else if rooted then cleanElems rooted rest kept
        else cleanElems rooted rest (".." :: kept)
      else cleanElems rooted rest (e :: kept)
  end.

(** [filepath.Clean]. *)
Definition Clean (path : string) : string :=
  if decide (path = "") then "."
  else
    let rooted := IsAbs path in
    let body := strings.Join
                  (rev (cleanElems rooted (strings.Split "/" path) [])) "/" in
    if rooted then "/" +:+ body
    else if decide (body = "") then "." else body.

(** [filepath.Join] of two elements: empty elements are left out and the
    rest is cleaned. *)
Definition Join (a b : string) : string :=
  if decide (a ≠ "") then Clean (a +:+ "/" +:+ b)
  else if decide (b ≠ "") then Clean b
  else "".

(** The first element that is not empty. *)
Fixpoint firstNonEmpty (elems : list string) : option string :=
  match elems with
  | [] => None
  | e :: rest => if decide (e = "") then firstNonEmpty rest else Some e
  end.

(** [filepath.Base]: the last element, trailing slashes apart. *)
Definition Base (path : string) : string :=
  if decide (path = "") then "."
  else match firstNonEmpty (rev (strings.Split "/" path)) with
       | None => "/"
       | Some e => e
       end.

(** [filepath.Dir]: what comes before the last element, cleaned. *)
Definition Dir (path : string) : string :=
  match rev (strings.Split "/" path) with
  | _ :: (_ :: _) as front =>
      Clean (strings.Join (rev front) "/" +:+ "/")
  | _ => Clean ""
  end.

(** The part of [elem] from its last dot on, if it has one. *)
Fixpoint fromLastDot (elem : string) : string :=
  match elem with
  | EmptyString => ""
  | String c rest =>
      if strings.ContainsAny rest ["."%char] then fromLastDot rest
      else if Ascii.eqb c "." then elem else ""
  end.

(** [filepath.Ext]. *)
Definition Ext (path : string) : string :=
  match rev (strings.Split "/" path) with
  | e :: _ => fromLastDot e
  | [] => ""
  end.

(** The elements [filepath.Rel] walks over in a cleaned path. *)
Definition relElems (p : string) : list string :=
  if decide (p = "") then []
  else if decide (p = "/") then [""]
  else strings.Split "/" p.

(** What is left of two element lists after their common front. *)
Fixpoint dropCommon (b t : list string) : list string * list string :=
  match b, t with
  | x :: b', y :: t' => if decide (x = y) then dropCommon b' t' else (b, t)
  | _, _ => (b, t)
  end.

(** [filepath.Rel]. *)
Definition Rel (basepath targpath : string) : result string :=
  let base := Clean basepath in
  let targ := Clean targpath in
  if decide (targ = base) then Ok "."
  else
    let base := if decide (base = ".") then "" else base in
    if negb (bool_decide (IsAbs base = IsAbs targ)) then
      Err (SysError false
             ("Rel: can't make " +:+ targpath +:+ " relative to " +:+ basepath))
    else
      let '(b, t) := dropCommon (relElems base) (relElems targ) in
      match b, t with
      | [], _ => Ok (strings.Join t "/")
      | e :: _, _ :: _ =>
          if decide (e = "..") then
            Err (SysError false
                   ("Rel: can't make " +:+ targpath +:+ " relative to "
                      +:+ basepath))
          else Ok (strings.Join (((λ _, "..") <$> b) ++ t) "/")
      | _ :: _, [] => Ok (strings.Join ((λ _, "..") <$> b) "/")
      end.

(** [filepath.ErrBadPattern]. *)
Definition ErrBadPattern : error := SysError false "syntax error in pattern".

(** Matching for a pattern of plain bytes, [?] and [*]: [?] takes one byte
    and [*] any run of bytes, neither takes a slash. *)
Fixpoint globMatch (pattern : list ascii) (name : list ascii) : bool :=
  match pattern with
  | [] => bool_decide (name = [])
  | p :: pattern' =>
      if Ascii.eqb p "*" then
        (fix star (name : list ascii) : bool :=
           globMatch pattern' name
           || match name with
              | c :: name' => negb (Ascii.eqb c "/") && star name'
              | [] => false
              end) name
      else
        match name with
        | c :: name' =>
            (if Ascii.eqb p "?" then negb (Ascii.eqb c "/") else Ascii.eqb p c)
            && globMatch pattern' name'
        | [] => false
        end
  end.

(** [filepath.Match] for the patterns of the examples: a pattern without
    an opening bracket and without a backslash is matched by [globMatch];
    a pattern whose opening bracket is never closed is malformed.  Other
    patterns with classes or escapes are not covered. *)
Definition Match (pattern name : string) : bool * option error :=
  if strings.ContainsAny pattern ["["; "092"]%char then
    if strings.ContainsAny pattern ["]"; "092"]%char then (false, None)
    else (false, Some ErrBadPattern)
  else (globMatch (String.list_ascii_of_string pattern)
          (String.list_ascii_of_string name), None).

(** [strings.ToLower] on ASCII text. *)
Fixpoint ToLower (s : string) : string :=
  match s with
  | EmptyString => ""
  | String c rest =>
      let n := N_of_ascii c in
      String (if ((65 <=? n) && (n <=? 90))%N then ascii_of_N (n + 32) else c)
             (ToLower rest)
  end.

(** The body of [strconv.Quote] on printable ASCII text: the quote and the
    backslash get a backslash before them. *)
Fixpoint quoteBody (s : string) : string :=
  match s with
  | EmptyString => ""
  | String c rest =>
      if Ascii.eqb c "034" || Ascii.eqb c "092"
      then String "092" (String c (quoteBody rest))
      else String c (quoteBody rest)
  end.

Definition dquote : string := String "034"%char EmptyString.

(** [%q] of a string. *)
Definition Quote (s : string) : string := dquote +:+ quoteBody s +:+ dquote.

#[global] Instance lib : GoLib :=
  Build_GoLib Separator Clean Join IsAbs Base Dir Ext Rel Match ToLower Quote.

End unix.

(** ** A file system given by tables *)

(** A Unix file system as far as a run sees it: the working directory and,
    for each call, a table of what the call returns at each path.
    [os.WriteFile] writes [written], which [os.ReadFile] reads first. *)
Module tables.
Import unix.

Record fsys : Type := Fsys {
  cwd : string;
  stats : list (string * result bool);
  walks : list (string * list visit);
  globs : list (string * result (list string));
  contents : list (string * string);
  mkdirErrors : list (string * error);
  writeErrors : list (string * error);
  written : gmap string string;
}.

(** The entry of a table at a key. *)
Fixpoint find {A} (table : list (string * A)) (key : string) : option A :=
  match table with
  | [] => None
  | (k, a) :: rest => if decide (k = key) then Some a else find rest key
  end.

Definition ENOENT (op path : string) : error :=
  SysError true (op +:+ " " +:+ path +:+ ": no such file or directory").

Definition EACCES (op path : string) : error :=
  SysError false (op +:+ " " +:+ path +:+ ": permission denied").

Definition setWritten (fs : fsys) (w : gmap string string) : fsys :=
  {| cwd := cwd fs; stats := stats fs; walks := walks fs; globs := globs fs;
     contents := contents fs; mkdirErrors := mkdirErrors fs;
     writeErrors := writeErrors fs; written := w |}.

(** A path as the system reads it: from the working directory unless it
    is absolute. *)
Definition resolve (fs : fsys) (path : string) : string :=
  if unix.IsAbs path then unix.Clean path else unix.Join (cwd fs) path.

#[global] Instance fs_ops : FileSystem fsys := {|
  Abs fs path := Ok (resolve fs path);
  Stat fs path :=
    match find (stats fs) (resolve fs path) with
    | Some r => r
    | None => Err (ENOENT "stat" path)
    end;
  WalkVisits fs start :=
    match find (walks fs) start with
    | Some vs => vs
    | None => []
    end;
  Glob fs pattern :=
    match find (globs fs) pattern with
    | Some r => r
    | None => Ok []
    end;
  ReadFile fs path :=
    match written fs !! resolve fs path with
    | Some data => Ok data
    | None =>
        match find (contents fs) (resolve fs path) with
        | Some data => Ok data
        | None => Err (ENOENT "open" path)
        end
    end;
  MkdirAll fs dir :=
    (fs, find (mkdirErrors fs) (resolve fs dir));
  WriteFile fs path data :=
    match find (writeErrors fs) (resolve fs path) with
    | Some err => (fs, Some err)
    | None => (setWritten fs (<[resolve fs path := data]> (written fs)), None)
    end;
|}.

(** A regular file and a directory as [filepath.WalkDir] meets them. *)
Definition file (path name : string) : visit := Visit path name false None.
Definition dir (path name : string) : visit := Visit path name true None.

(** The project [/proj] with [src/a.go], [src/b/c.go] and [src/notes.md],
    and a directory [/proj/locked] that cannot be looked into. *)
Definition project : fsys :=
  {| cwd := "/proj";
     stats := [ ("/proj/src", Ok true);
                ("/proj/src/a.go", Ok false);
                ("/proj/src/b", Ok true);
                ("/proj/locked", Ok true);
                ("/proj/locked/key", Err (EACCES "stat" "/proj/locked/key")) ];
     walks := [ ("/proj/src",
                 [ dir "/proj/src" "src";
                   file "/proj/src/a.go" "a.go";
                   dir "/proj/src/b" "b";
                   file "/proj/src/b/c.go" "c.go";
                   file "/proj/src/notes.md" "notes.md" ]);
                ("/proj/src/b",
                 [ dir "/proj/src/b" "b";
                   file "/proj/src/b/c.go" "c.go" ]);
                ("/proj/locked",
                 [ dir "/proj/locked" "locked";
                   Visit "/proj/locked" "locked" true
                     (Some (EACCES "open" "/proj/locked")) ]) ];
     globs := [ ("/proj/s*", Ok ["/proj/src"]);
                ("/proj/src/*", Ok ["/proj/src/a.go"; "/proj/src/b";
                                    "/proj/src/notes.md"]) ];
     contents := [ ("/proj/src/a.go", "package a");
                   ("/proj/src/b/c.go", "package b" +:+ nl);
                   ("/proj/src/notes.md", "notes" +:+ nl) ];
     mkdirErrors := [];
     writeErrors := [ ("/ro/out.md", EACCES "open" "/ro/out.md") ];
     written := ∅ |}.

(** A project whose [src] holds [index.php] and [vendor/lib.php]. *)
Definition phpProject : fsys :=
  {| cwd := "/site";
     stats := [ ("/site/src", Ok true) ];
     walks := [ ("/site/src",
                 [ dir "/site/src" "src";
                   file "/site/src/index.php" "index.php";
                   dir "/site/src/vendor" "vendor";
                   file "/site/src/vendor/lib.php" "lib.php" ]) ];
     globs := [];
     contents := [ ("/site/src/index.php", "<?php");
                   ("/site/src/vendor/lib.php", "<?php") ];
     mkdirErrors := [];
     writeErrors := [];
     written := ∅ |}.

(** Three documents over [project]: the second has a source of an unknown
    type. *)
Definition docOne : Document :=
  mkDocument "" "out/one.md" [mkSource "tree" ["src"] [] "*.go"].
Definition docTwo : Document :=
  mkDocument "Two" "out/two.md"
    [mkSource "Tree" ["src"] [] "*.md"; mkSource "bogus" ["src"] [] ""].
Definition docThree : Document :=
  mkDocument "" "out/three.md" [mkSource "file" ["src"] [] "*.md"].
Definition threeDocs : Config :=
  mkConfig "." [docOne; docTwo; docThree].

(** A document whose source of an unknown type names a path that cannot
    be looked at. *)
Definition lockedDoc : Document :=
  mkDocument "" "out/locked.md" [mkSource "bogus" ["locked/key"] [] ""].

(** A document that cannot be written. *)
Definition readOnlyDoc : Document :=
  mkDocument "" "/ro/out.md" [mkSource "file" ["src"] [] "*.md"].

(** The file system and the log after [docOne] is generated. *)
Definition afterOne : fsys := (generateLoop project "." [docOne]).1.1.
Definition logOne : list event := (generateLoop project "." [docOne]).1.2.

End tables.

(** ** What the specification says, in its words *)

Section specification.
Context `{GoLib} {FS : Type} `{FileSystem FS}.

(** A path uses forward slashes: the host's separator is the slash, or it
    is not among the bytes of the path. *)
Definition usesForwardSlashes (p : string) : Prop :=
  Separator = "/"%char ∨ Separator ∉ String.list_ascii_of_string p.

(** The Path Expander on one entry: resolve it against the root unless it
    is absolute; if the resolved pattern has a glob metacharacter, every
    match of its expansion, cleaned (none when nothing matches); if it has
    none, its cleaned path. *)
Definition entry_starts (fs : FS) (rootAbs entry : string)
    : result (list string) :=
  let pat := if IsAbs entry then entry else Join rootAbs entry in
  if hasGlob pat then
    match Glob fs pat with
    | Err e => Err (Wrapped ("glob " +:+ pat +:+ ": ") e)
    | Ok matches => Ok (Clean <$> matches)
    end
  else Ok [Clean pat].

(** The Path Expander: what the entries give, in the order of the entries;
    the first expansion that fails is the result. *)
Fixpoint expand_spec (fs : FS) (rootAbs : string) (entries : list string)
    : result (list string) :=
  match entries with
  | [] => Ok []
  | entry :: rest =>
      match entry_starts fs rootAbs entry with
      | Err e => Err e
      | Ok starts =>
          match expand_spec fs rootAbs rest with
          | Err e => Err e
          | Ok starts' => Ok (starts ++ starts')
          end
      end
  end.

(** A start point at which the collector meets no error but not-found:
    its stat succeeds or reports not-found, the walk of a directory
    reports no error, and every path to include can be made relative. *)
Definition start_without_error (fs : FS) (rootAbs : string)
    (patterns : list string) (start : string) : Prop :=
  match Stat fs start with
  | Err err => is_not_exist err = true
  | Ok false =>
      included patterns (Base start) = true →
      is_ok (Rel rootAbs start) = true
  | Ok true =>
      Forall (λ v, v_err v = None
                   ∧ (v_isDir v = false →
                      included patterns (v_name v) = true →
                      is_ok (Rel rootAbs (v_path v)) = true))
             (WalkVisits fs start)
  end.

Definition all_forward (seen : gset string) : Prop :=
  ∀ p, p ∈ seen → usesForwardSlashes p.

(** The regular file at [path], called [name], is included and listed as
    [p]: the pattern list is empty or the name matches one of its
    patterns, and [p] is the file's path from the root, with slashes. *)
Definition includes_file (rootAbs : string) (patterns : list string)
    (path name p : string) : Prop :=
  (patterns = [] ∨ ∃ pat, pat ∈ patterns ∧ (Match pat name).1 = true)
  ∧ ∃ rel, Rel rootAbs path = Ok rel ∧ p = ToSlash rel.

(** The start point gives the path [p]: it is an included regular file, or
    a directory whose walk meets an included regular file. *)
Definition start_yields (fs : FS) (rootAbs : string) (patterns : list string)
    (start p : string) : Prop :=
  match Stat fs start with
  | Ok false => includes_file rootAbs patterns start (Base start) p
  | Ok true =>
      ∃ v, v ∈ WalkVisits fs start ∧ v_isDir v = false
           ∧ includes_file rootAbs patterns (v_path v) (v_name v) p
  | Err _ => False
  end.

(** ** Trees *)

(** The depth of a tree, for induction over nodes. *)
Fixpoint height (n : tnode) : nat :=
  S (map_fold (λ _ c acc, height c `max` acc) 0 (children n)).

(** Every node below [n] is filed in its parent's map under its own
    name. *)
Inductive named : tnode → Prop :=
| named_node n :
    (∀ k c, children n !! k = Some c → name c = k ∧ named c) → named n.

(** The entries written for the children of a node. *)
Definition kids (n : tnode) : list entry :=
  entriesOf (layoutNode <$> children n) (sortedKeys (children n) true).

(** The entry of a rendering reached by a chain of labels from the top
    level. *)
Fixpoint entryAt (es : list entry) (labels : list string) : option entry :=
  match labels with
  | [] => None
  | l :: rest =>
      match list_find (λ e, label e = l) es with
      | Some (_, e) =>
          if decide (rest = []) then Some e else entryAt (below e) rest
      | None => None
      end
  end.

(** [i == len(parts)-1] in [insertPath]: the node is marked when no part
    follows. *)
Definition markLast (rest : list string) (n : tnode) : tnode :=
  if decide (rest = []) then markFile n else n.

(** The tree has a node at the end of the chain; the node there is marked
    as a file. *)
Definition hasNode (t : tnode) (chain : list string) : Prop :=
  is_Some (nodeAt t chain).

Definition fileAt (t : tnode) (chain : list string) : Prop :=
  ∃ n, nodeAt t chain = Some n ∧ isFile n = true.

(** ** Sources and documents *)

(** Two sources that differ at most in their [excludePaths]. *)
Definition sameButExcludes (s1 s2 : Source) : Prop :=
  Type_ s1 = Type_ s2
  ∧ SourcePaths s1 = SourcePaths s2
  ∧ FilePattern s1 = FilePattern s2.

(** The error for a source type that is neither "tree" nor "file". *)
Definition unknownSourceType (src : Source) : error :=
  NewError ("unknown source type: " +:+ Quote (Type_ src)).

End specification.

(** ** The commands and the configuration file *)

(** [yaml.Marshal] and [yaml.Unmarshal] of gopkg.in/yaml.v3 on [Config]. *)
Class Yaml : Type := {
  Marshal : Config → result string;
  Unmarshal : string → result Config;
}.

Section commands.
Context `{GoLib} `{Yaml} {FS : Type} `{FileSystem FS}.

Definition defaultConfigPath : string := "config.yaml".

(** [config.Save]; [ensureDir] of package [config] is the function of the
    same name and text of package [generator]. *)
Definition Save (fs : FS) (path : string) (c : Config)
    : FS * list event * option error :=
  match Marshal c with
  | Err err => (fs, [], Some err)
  | Ok data =>
      match ensureDir fs (Dir path) with
      | (fs1, ev1, Some err) => (fs1, ev1, Some err)
      | (fs1, ev1, None) =>
          let '(fs2, werr) := WriteFile fs1 path data in
          (fs2, ev1 ++ [EvWriteFile path data], werr)
      end
  end.

(** [config.Load]. *)
Definition Load (fs : FS) (path : string) : result Config :=
  match ReadFile fs path with
  | Err err => Err err
  | Ok data => Unmarshal data
  end.

(** The path a command works on: [defaultConfigPath] for the empty one. *)
Definition configPath (path : string) : string :=
  if decide (path = "") then defaultConfigPath else path.

(** [runInit]: the file system, the log of its changes, the text printed to
    the standard output and the error. *)
Definition runInit (path : string) (fs : FS)
    : FS * list event * string * option error :=
  let path := configPath path in
  match Stat fs path with
  | Ok _ => (fs, [], "", Some (NewError ("config already exists: " +:+ path)))
  | Err err =>
      if negb (is_not_exist err) then
        (fs, [], "", Some (Wrapped ("cannot stat " +:+ path +:+ ": ") err))
      else
        match Save fs path Default with
        | (fs', ev, Some err) => (fs', ev, "", Some err)
        | (fs', ev, None) =>
            (fs', ev, "Default config created at " +:+ path +:+ nl, None)
        end
  end.

(** [runGenerate]. *)
Definition runGenerate (path : string) (fs : FS)
    : FS * list event * string * option error :=
  let path := configPath path in
  match Load fs path with
  | Err err => (fs, [], "", Some err)
  | Ok conf =>
      match Generate conf "." fs with
      | (fs', ev, Some err) => (fs', ev, "", Some err)
      | (fs', ev, None) => (fs', ev, "Generation completed" +:+ nl, None)
      end
  end.

(** ** The pieces of a document *)

(** The content of a file as it stands between the fences: a line feed is
    added when the content is not empty and does not end in one. *)
Definition closedContent (data : string) : string :=
  data +:+ (if lacksFinalNewline data then nl else "").

(** What a "file" source writes for one file: the heading with the path,
    the opening fence with the language, the content closed by a line feed,
    the closing fence. *)
Definition fileBlock (rel data : string) : string :=
  "### " +:+ rel +:+ nl +:+ nl
  +:+ (if decide (detectLang rel ≠ "") then "```" +:+ detectLang rel +:+ nl
       else "```" +:+ nl)
  +:+ closedContent data
  +:+ "```" +:+ nl +:+ nl.

(** The texts of a list, one after the other. *)
Definition concatAll (texts : list string) : string :=
  foldr String.append "" texts.

(** What a "tree" and a "file" source write when no file is collected. *)
Definition treeNotice (src : Source) : string :=
  "```" +:+ nl +:+ "(no matches for " +:+ Quote (FilePattern src) +:+ " in "
  +:+ fmt_v (SourcePaths src) +:+ ")" +:+ nl +:+ "```" +:+ nl +:+ nl.

Definition fileNotice (src : Source) : string :=
  "_No files matched " +:+ Quote (FilePattern src) +:+ " under "
  +:+ fmt_v (SourcePaths src) +:+ "_" +:+ nl +:+ nl.

(** A start point that is not there. *)
Definition missing (fs : FS) (start : string) : Prop :=
  ∃ err, Stat fs start = Err err ∧ is_not_exist err = true.

End commands.

(** A YAML library for runs in which no configuration is written or read:
    it fails on every call. *)
Module stubs.
#[global] Instance noYaml : Yaml :=
  Build_Yaml (λ _, Err (NewError "yaml: not supported"))
             (λ _, Err (NewError "yaml: not supported")).
End stubs.

(** The scan of [strings.TrimLeftSpace] and of [strings.TrimLeftSpaceRev]
    with the three tests as arguments: white space of one, two and three
    bytes is taken from the front. *)
Fixpoint trimWith (sp1 : ascii → bool) (sp2 : ascii → ascii → bool)
    (sp3 : ascii → ascii → ascii → bool) (s : string) : string :=
  match s with
  | EmptyString => EmptyString
  | String c1 s1 =>
      if sp1 c1 then trimWith sp1 sp2 sp3 s1
      else match s1 with
           | EmptyString => s
           | String c2 s2 =>
               if sp2 c1 c2 then trimWith sp1 sp2 sp3 s2
               else match s2 with
                    | EmptyString => s
                    | String c3 s3 =>
                        if sp3 c1 c2 c3 then trimWith sp1 sp2 sp3 s3 else s
                    end
           end
  end.

(** * Properties *)

(** ** Package [strings] and [sort] *)

Lemma Split_not_nil sep s : strings.Split sep s ≠ [].
Proof.
  destruct s as [|c s]; simpl; [done|].
  destruct (Ascii.eqb c sep); [done|].
  by destruct (strings.Split sep s).
Qed.

Lemma Join_cons2 sep x y l :
  strings.Join (x :: y :: l) sep = x +:+ sep +:+ strings.Join (y :: l) sep.
Proof. reflexivity. Qed.

(** Joining the pieces with the separator gives the string back. *)
Lemma Split_Join sep s :
  strings.Join (strings.Split sep s) (String sep EmptyString) = s.
Proof.
  induction s as [|c s IH]; simpl; [done|].
  pose proof (Split_not_nil sep s) as Hnil.
  destruct (strings.Split sep s) as [|w ws] eqn:E; [done|].
  destruct (Ascii.eqb_spec c sep) as [->|Hne].
  - by rewrite Join_cons2, IH.
  - destruct ws as [|w' ws].
    + unfold strings.Join in *. simpl in *. by rewrite IH.
    + rewrite Join_cons2 in IH |- *. by rewrite <- IH.
Qed.

(** No piece holds the separator. *)
Lemma Split_no_sep sep s :
  Forall (λ w, sep ∉ String.list_ascii_of_string w) (strings.Split sep s).
Proof.
  induction s as [|c s IH]; simpl.
  - repeat constructor. simpl. by intros ?%elem_of_nil.
  - destruct (Ascii.eqb_spec c sep) as [->|Hne].
    + constructor; [|done]. simpl. by intros ?%elem_of_nil.
    + destruct (strings.Split sep s) as [|w ws].
      * repeat constructor. simpl. rewrite list_elem_of_singleton. congruence.
      * inversion IH as [|?? Hw Hws]; subst. constructor; [|done].
        simpl. rewrite not_elem_of_cons. split; [congruence|done].
Qed.

Lemma chars_app s1 s2 :
  String.list_ascii_of_string (s1 +:+ s2)
  = String.list_ascii_of_string s1 ++ String.list_ascii_of_string s2.
Proof. induction s1 as [|c s1 IH]; simpl; [done|]. by rewrite IH. Qed.

(** A byte of a joined string is a byte of the separator or of a piece. *)
Lemma chars_Join c sep ws :
  c ∈ String.list_ascii_of_string (strings.Join ws sep) →
  c ∈ String.list_ascii_of_string sep
  ∨ Exists (λ w, c ∈ String.list_ascii_of_string w) ws.
Proof.
  induction ws as [|w ws IH].
  - by intros ?%elem_of_nil.
  - destruct ws as [|w' ws].
    + intros Hc. right. by constructor.
    + rewrite Join_cons2, !chars_app, !elem_of_app. intros [Hc|[Hc|Hc]].
      * right. by constructor.
      * by left.
      * destruct (IH Hc) as [?|?]; [by left|right; by constructor].
Qed.

Lemma sort_Strings_sorted l : StronglySorted String.le (sort_Strings l).
Proof. apply (StronglySorted_merge_sort _). Qed.

Lemma sort_Strings_perm l : sort_Strings l ≡ₚ l.
Proof. apply merge_sort_Permutation. Qed.

(** The sorted slice does not depend on the order the keys came in, so the
    order in which [range] walks a map does not show. *)
Lemma sort_Strings_order l l' :
  l ≡ₚ l' → sort_Strings l = sort_Strings l'.
Proof.
  intros Hp. apply (StronglySorted_unique String.le);
    [apply sort_Strings_sorted..|].
  by rewrite !sort_Strings_perm.
Qed.

Lemma sort_Strings_elem x l : x ∈ sort_Strings l ↔ x ∈ l.
Proof. by rewrite sort_Strings_perm. Qed.

(** ** The pattern matcher *)

Lemma splitPatterns_loop (f : string → string) parts acc :
  foldl (λ out p, let p := f p in if decide (p ≠ "") then out ++ [p] else out)
        acc parts
  = acc ++ filter (λ p, p ≠ "") (f <$> parts).
Proof.
  revert acc. induction parts as [|p parts IH]; intros acc; simpl.
  - by rewrite app_nil_r.
  - rewrite IH. rewrite filter_cons. destruct (decide (f p ≠ "")); simpl.
    + by rewrite <- app_assoc.
    + done.
Qed.

Lemma splitPatterns_spec csv : splitPatterns csv = patterns_spec csv.
Proof. unfold splitPatterns, patterns_spec. by rewrite splitPatterns_loop. Qed.

(** No pattern of the list is empty. *)
Lemma splitPatterns_nonempty csv p : p ∈ splitPatterns csv → p ≠ "".
Proof.
  rewrite splitPatterns_spec. unfold patterns_spec.
  by intros [? _]%list_elem_of_filter.
Qed.

Section matcher.
Context `{GoLib}.

Lemma matchAny_true patterns name :
  matchAny patterns name = true
  ↔ ∃ p, p ∈ patterns ∧ (Match p name).1 = true.
Proof.
  induction patterns as [|p ps IH]; simpl.
  - split; [done|]. intros (p & Hp & _). by apply elem_of_nil in Hp.
  - destruct (Match p name) as [ok e] eqn:E. destruct ok.
    + split; [|done]. intros _. exists p. rewrite E. split; [left|done].
    + rewrite IH. split.
      * intros (q & Hq & Hm). exists q. split; [by right|done].
      * intros (q & Hq & Hm). apply elem_of_cons in Hq as [->|Hq].
        -- rewrite E in Hm. done.
        -- by exists q.
Qed.

Lemma included_true patterns name :
  included patterns name = true
  ↔ patterns = [] ∨ ∃ p, p ∈ patterns ∧ (Match p name).1 = true.
Proof.
  unfold included. rewrite orb_true_iff, matchAny_true, Nat.eqb_eq.
  by rewrite length_zero_iff_nil.
Qed.

End matcher.

(** ** The path expander and the file collector *)

Section collector.
Context `{GoLib} {FS : Type} `{FileSystem FS}.

Lemma clean_matches_loop (out matches : list string) :
  foldl (λ out m, out ++ [Clean m]) out matches = out ++ (Clean <$> matches).
Proof.
  revert out. induction matches as [|m ms IH]; intros out; simpl.
  - by rewrite app_nil_r.
  - by rewrite IH, <- app_assoc.
Qed.

Lemma expandLoop_spec (fs : FS) rootAbs dirs out :
  expandLoop fs rootAbs dirs out
  = match expand_spec fs rootAbs dirs with
    | Ok starts => Ok (out ++ starts)
    | Err e => Err e
    end.
Proof.
  revert out. induction dirs as [|d dirs IH]; intros out; simpl.
  - by rewrite app_nil_r.
  - unfold entry_starts.
    destruct (hasGlob _); [destruct (Glob fs _) as [matches|e]|]; try done.
    + destruct (Nat.eqb_spec (length matches) 0) as [Hlen|Hlen].
      * apply length_zero_iff_nil in Hlen as ->. rewrite IH. simpl.
        by destruct (expand_spec fs rootAbs dirs).
      * rewrite IH, clean_matches_loop.
        destruct (expand_spec fs rootAbs dirs); [|done].
        by rewrite app_assoc.
    + rewrite IH. destruct (expand_spec fs rootAbs dirs); [|done].
      by rewrite <- app_assoc.
Qed.

(** The paths [walkFn] and the loops add are all of the form [ToSlash _]. *)
Lemma ToSlash_forward (p : string) : usesForwardSlashes (ToSlash p).
Proof.
  unfold usesForwardSlashes, ToSlash.
  destruct (Ascii.eqb_spec Separator "/") as [?|Hne]; [by left|right].
  intros [Hc|Hc]%chars_Join.
  - simpl in Hc. apply list_elem_of_singleton in Hc. done.
  - apply Exists_exists in Hc as (w & Hw & Hc).
    pose proof (Split_no_sep Separator p) as Hno.
    rewrite Forall_forall in Hno. by apply (Hno w).
Qed.

Lemma all_forward_add rel seen :
  all_forward seen → all_forward ({[ ToSlash rel ]} ∪ seen).
Proof.
  intros Hs p [->%elem_of_singleton|Hp]%elem_of_union;
    [apply ToSlash_forward|by apply Hs].
Qed.

Lemma walkFn_forward rootAbs patterns v seen seen' :
  walkFn rootAbs patterns v seen = Ok seen' →
  all_forward seen → all_forward seen'.
Proof.
  unfold walkFn. intros Hw Hs.
  destruct (v_err v); [done|]. destruct (v_isDir v); [by simplify_eq|].
  destruct (included _ _); [|by simplify_eq].
  destruct (Rel _ _); simplify_eq. by apply all_forward_add.
Qed.

Lemma WalkDir_forward rootAbs patterns visits seen seen' :
  WalkDir visits (walkFn rootAbs patterns) seen = Ok seen' →
  all_forward seen → all_forward seen'.
Proof.
  revert seen. induction visits as [|v vs IH]; intros seen; simpl.
  - by intros [= ->].
  - destruct (walkFn _ _ v seen) as [s1|] eqn:E; [|done].
    intros Hw Hs. eapply IH; [done|]. by eapply walkFn_forward.
Qed.

Lemma collectLoop_forward (fs : FS) rootAbs patterns starts seen seen' :
  collectLoop fs rootAbs patterns starts seen = Ok seen' →
  all_forward seen → all_forward seen'.
Proof.
  revert seen. induction starts as [|start rest IH]; intros seen; simpl.
  - by intros [= ->].
  - destruct (Stat fs start) as [[|]|err].
    + destruct (WalkDir _ _ seen) as [s1|] eqn:E; [|done].
      intros Hc Hs. eapply IH; [done|]. by eapply WalkDir_forward.
    + destruct (included _ _); [|by apply IH].
      destruct (Rel _ _); [|done].
      intros Hc Hs. eapply IH; [done|]. by apply all_forward_add.
    + destruct (is_not_exist err); [by apply IH|done].
Qed.

(** C1: whenever [collectFiles] returns a list, the list ascends in Go's
    string order, no path occurs in it twice (however many start points
    lead to a file), and every path uses forward slashes. *)
Theorem collectFiles_sorted_unique_slashes (fs : FS) root dirs patternCSV out :
  collectFiles fs root dirs patternCSV = Ok out →
  StronglySorted String.le out
  ∧ NoDup out
  ∧ Forall usesForwardSlashes out.
Proof.
  unfold collectFiles. intros Hc.
  destruct (Abs fs root) as [rootAbs|]; [|done].
  destruct (expandSourceStarts fs rootAbs dirs) as [starts|]; [|done].
  destruct (collectLoop _ _ _ _ _) as [seen|] eqn:Hloop; [|done].
  injection Hc as <-. split_and!.
  - apply sort_Strings_sorted.
  - rewrite sort_Strings_perm. apply NoDup_elements.
  - apply Forall_forall. intros p Hp%sort_Strings_elem%elem_of_elements.
    eapply collectLoop_forward; [done| |done].
    intros q Hq. by apply not_elem_of_empty in Hq.
Qed.

Lemma walkFn_elem rootAbs patterns v seen seen' p :
  walkFn rootAbs patterns v seen = Ok seen' →
  p ∈ seen' ↔ p ∈ seen
             ∨ (v_isDir v = false
                ∧ includes_file rootAbs patterns (v_path v) (v_name v) p).
Proof.
  unfold walkFn, includes_file. intros Hw.
  destruct (v_err v); [done|]. destruct (v_isDir v).
  { simplify_eq. naive_solver. }
  destruct (included patterns (v_name v)) eqn:Hinc.
  - apply included_true in Hinc.
    destruct (Rel rootAbs (v_path v)) as [rel|]; simplify_eq.
    rewrite elem_of_union, elem_of_singleton. naive_solver.
  - simplify_eq. split; [by left|]. intros [?|(_ & Hinc' & _)]; [done|].
    apply included_true in Hinc'. congruence.
Qed.

Lemma WalkDir_elem rootAbs patterns visits seen seen' p :
  WalkDir visits (walkFn rootAbs patterns) seen = Ok seen' →
  p ∈ seen' ↔ p ∈ seen
             ∨ ∃ v, v ∈ visits ∧ v_isDir v = false
                    ∧ includes_file rootAbs patterns (v_path v) (v_name v) p.
Proof.
  revert seen. induction visits as [|v vs IH]; intros seen; simpl.
  - intros [= ->]. split; [by left|]. intros [?|(v & Hv & _)]; [done|].
    by apply elem_of_nil in Hv.
  - destruct (walkFn _ _ v seen) as [s1|] eqn:E; [|done]. intros Hw.
    rewrite (IH _ Hw), (walkFn_elem _ _ _ _ _ _ E). split.
    + intros [[?|?]|(v' & Hv' & ?)]; [by left|right..].
      * exists v. split; [left|done].
      * exists v'. split; [by right|done].
    + intros [?|(v' & [->|Hv']%elem_of_cons & ?)];
        [by left; left|by left; right|right; by exists v'].
Qed.

Lemma collectLoop_elem (fs : FS) rootAbs patterns starts seen seen' p :
  collectLoop fs rootAbs patterns starts seen = Ok seen' →
  p ∈ seen' ↔ p ∈ seen
             ∨ ∃ start, start ∈ starts
                        ∧ start_yields fs rootAbs patterns start p.
Proof.
  revert seen. induction starts as [|start rest IH]; intros seen; simpl.
  - intros [= ->]. split; [by left|]. intros [?|(v & Hv & _)]; [done|].
    by apply elem_of_nil in Hv.
  - assert (∀ s1 (P : Prop),
      collectLoop fs rootAbs patterns rest s1 = Ok seen' →
      (p ∈ s1 ↔ p ∈ seen ∨ P) →
      (P ↔ start_yields fs rootAbs patterns start p) →
      p ∈ seen' ↔ p ∈ seen
        ∨ ∃ start', start' ∈ start :: rest
                    ∧ start_yields fs rootAbs patterns start' p) as Hstep.
    { intros s1 P Hrest Hs1 HP. rewrite (IH _ Hrest), Hs1, HP. split.
      - intros [[?|?]|(s' & Hs' & ?)]; [by left|right..].
        + exists start. split; [left|done].
        + exists s'. split; [by right|done].
      - intros [?|(s' & [->|Hs']%elem_of_cons & ?)];
          [by left; left|by left; right|right; by exists s']. }
    destruct (Stat fs start) as [[|]|err] eqn:Hstat.
    + destruct (WalkDir _ _ seen) as [s1|] eqn:E; [|done]. intros Hc.
      eapply Hstep; [done|by apply WalkDir_elem|].
      unfold start_yields. by rewrite Hstat.
    + destruct (included patterns (Base start)) eqn:Hinc.
      * destruct (Rel rootAbs start) as [rel|] eqn:Hrel; [|done]. intros Hc.
        eapply (Hstep _ (includes_file rootAbs patterns start (Base start) p));
          [done| |unfold start_yields; by rewrite Hstat].
        rewrite elem_of_union, elem_of_singleton. unfold includes_file.
        apply included_true in Hinc. rewrite Hrel. naive_solver.
      * intros Hc. eapply (Hstep _ False); [done|naive_solver|].
        unfold start_yields, includes_file. rewrite Hstat.
        split; [done|]. intros [Hinc' _].
        apply included_true in Hinc'. congruence.
    + destruct (is_not_exist err); [|done]. intros Hc.
      eapply (Hstep _ False); [done|naive_solver|].
      unfold start_yields. by rewrite Hstat.
Qed.

(** C4: the pattern list is the comma-separated string split, trimmed and
    without its empty entries; and the list [collectFiles] returns holds
    exactly the paths of the regular files it meets (a start point that is
    a file, or a file in the walk of a directory) for which that pattern
    list is empty or the base name matches one of its patterns. *)
Theorem pattern_list_decides_inclusion (fs : FS) root dirs patternCSV out :
  collectFiles fs root dirs patternCSV = Ok out →
  splitPatterns patternCSV = patterns_spec patternCSV
  ∧ ∃ rootAbs starts,
      Abs fs root = Ok rootAbs
      ∧ expandSourceStarts fs rootAbs dirs = Ok starts
      ∧ ∀ p, p ∈ out
             ↔ ∃ start, start ∈ starts
                  ∧ start_yields fs rootAbs (patterns_spec patternCSV) start p.
Proof.
  unfold collectFiles. intros Hc. split; [apply splitPatterns_spec|].
  destruct (Abs fs root) as [rootAbs|] eqn:Habs; [|done].
  destruct (expandSourceStarts fs rootAbs dirs) as [starts|] eqn:Hexp; [|done].
  destruct (collectLoop _ _ _ _ _) as [seen|] eqn:Hloop; [|done].
  injection Hc as <-. exists rootAbs, starts. split_and!; [done..|].
  intros p. rewrite sort_Strings_elem, elem_of_elements.
  rewrite (collectLoop_elem _ _ _ _ _ _ _ Hloop), splitPatterns_spec.
  split; [|by right]. intros [Hp|?]; [|done]. by apply not_elem_of_empty in Hp.
Qed.

End collector.

Section collector_errors.
Context `{GoLib} {FS : Type} `{FileSystem FS}.

(** C5, amended: the Path Expander goes by the resolved pattern.  Each
    entry is resolved against the root unless it is absolute; when the
    resolved pattern has a glob metacharacter the entry gives every match
    of its expansion, cleaned, and nothing when there is no match; when it
    has none the entry gives its cleaned path; the output follows the order
    of the entries and then of the matches, and the first expansion that
    fails is the result. *)
Theorem expandSourceStarts_by_resolved_pattern (fs : FS) rootAbs dirs :
  expandSourceStarts fs rootAbs dirs = expand_spec fs rootAbs dirs.
Proof.
  unfold expandSourceStarts. rewrite expandLoop_spec.
  by destruct (expand_spec fs rootAbs dirs).
Qed.

Lemma WalkDir_app visits1 visits2 fn seen :
  WalkDir (visits1 ++ visits2) fn seen
  = match WalkDir visits1 fn seen with
    | Ok seen1 => WalkDir visits2 fn seen1
    | Err e => Err e
    end.
Proof.
  revert seen. induction visits1 as [|v vs IH]; intros seen; simpl; [done|].
  destruct (fn v seen); [apply IH|done].
Qed.

(** A walk that meets an error does not return a set. *)
Lemma WalkDir_error rootAbs patterns visits seen :
  Exists (λ v, v_err v ≠ None) visits →
  ∃ err, WalkDir visits (walkFn rootAbs patterns) seen = Err err.
Proof.
  revert seen. induction visits as [|v vs IH]; intros seen Hex.
  - by apply Exists_nil in Hex.
  - simpl. destruct (walkFn rootAbs patterns v seen) as [s1|e] eqn:E; [|by exists e].
    apply Exists_cons in Hex as [Hv|Hvs]; [|by apply IH].
    unfold walkFn in E. by destruct (v_err v).
Qed.

Lemma WalkDir_ok_clean rootAbs patterns visits seen seen' :
  WalkDir visits (walkFn rootAbs patterns) seen = Ok seen' →
  Forall (λ v, v_err v = None
               ∧ (v_isDir v = false →
                  included patterns (v_name v) = true →
                  is_ok (Rel rootAbs (v_path v)) = true)) visits.
Proof.
  revert seen. induction visits as [|v vs IH]; intros seen; simpl; [done|].
  destruct (walkFn rootAbs patterns v seen) as [s1|e] eqn:E; [|done].
  intros Hw. constructor; [|by eapply IH].
  unfold walkFn in E. destruct (v_err v); [done|]. split; [done|].
  intros Hd Hi. rewrite Hd, Hi in E. by destruct (Rel _ _).
Qed.

Lemma collectLoop_ok_clean (fs : FS) rootAbs patterns starts seen seen' :
  collectLoop fs rootAbs patterns starts seen = Ok seen' →
  Forall (start_without_error fs rootAbs patterns) starts.
Proof.
  revert seen. induction starts as [|start rest IH]; intros seen; simpl; [done|].
  intros Hc.
  assert (∀ s1, collectLoop fs rootAbs patterns rest s1 = Ok seen' →
                start_without_error fs rootAbs patterns start →
                Forall (start_without_error fs rootAbs patterns) (start :: rest))
    as Hstep.
  { intros s1 Hrest Hstart. constructor; [done|by eapply IH]. }
  unfold start_without_error in Hstep.
  destruct (Stat fs start) as [[|]|err].
  - destruct (WalkDir _ _ seen) as [s1|] eqn:E; [|done].
    eapply Hstep; [done|]. by eapply WalkDir_ok_clean.
  - destruct (included patterns (Base start)).
    + destruct (Rel rootAbs start); [|done]. by eapply Hstep.
    + by eapply Hstep.
  - destruct (is_not_exist err); [|done]. by eapply Hstep.
Qed.

(** C6, amended: a start point whose stat reports not-found is skipped, with
    no error and no entry; any other stat failure is the failure of the
    collector, wrapped with the path; an error met in the walk of a
    directory is the failure of the collector, wrapped with the start
    point; and when [collectFiles] returns a list, no path resolution, glob
    expansion, stat other than not-found, walk or relative-path step has
    failed.  The error of a malformed pattern is another matter:
    [matchAny] drops it and the pattern matches nothing. *)
Theorem collector_error_conditions (fs : FS) rootAbs patterns start rest seen :
  (∀ err, Stat fs start = Err err → is_not_exist err = true →
     collectLoop fs rootAbs patterns (start :: rest) seen
     = collectLoop fs rootAbs patterns rest seen)
  ∧ (∀ err, Stat fs start = Err err → is_not_exist err = false →
       collectLoop fs rootAbs patterns (start :: rest) seen
       = Err (Wrapped ("stat " +:+ start +:+ ": ") err))
  ∧ (∀ before v after seen1 walkErr,
       Stat fs start = Ok true →
       WalkVisits fs start = before ++ v :: after →
       WalkDir before (walkFn rootAbs patterns) seen = Ok seen1 →
       v_err v = Some walkErr →
       collectLoop fs rootAbs patterns (start :: rest) seen
       = Err (Wrapped ("walk " +:+ start +:+ ": ") walkErr))
  ∧ (Stat fs start = Ok true →
     Exists (λ v, v_err v ≠ None) (WalkVisits fs start) →
     ∃ err, collectLoop fs rootAbs patterns (start :: rest) seen
            = Err (Wrapped ("walk " +:+ start +:+ ": ") err))
  ∧ (∀ root dirs patternCSV out,
       collectFiles fs root dirs patternCSV = Ok out →
       ∃ rootAbs' starts,
         Abs fs root = Ok rootAbs'
         ∧ expandSourceStarts fs rootAbs' dirs = Ok starts
         ∧ Forall (start_without_error fs rootAbs' (splitPatterns patternCSV))
                  starts)
  ∧ (∀ pattern name err,
       Match pattern name = (false, Some err) →
       matchAny [pattern] name = false).
Proof.
  split_and!.
  - intros err Hstat Hne. simpl. by rewrite Hstat, Hne.
  - intros err Hstat Hne. simpl. by rewrite Hstat, Hne.
  - intros before v after seen1 walkErr Hstat Hvisits Hbefore Hv. simpl.
    rewrite Hstat, Hvisits, WalkDir_app, Hbefore. simpl.
    unfold walkFn at 1. by rewrite Hv.
  - intros Hstat Hex. simpl. rewrite Hstat.
    destruct (WalkDir_error rootAbs patterns _ seen Hex) as [err ->].
    by exists err.
  - unfold collectFiles. intros root dirs patternCSV out Hc.
    destruct (Abs fs root) as [rootAbs'|] eqn:Habs; [|done].
    destruct (expandSourceStarts fs rootAbs' dirs) as [starts|] eqn:Hexp; [|done].
    destruct (collectLoop _ _ _ _ _) as [seen'|] eqn:Hloop; [|done].
    exists rootAbs', starts. split_and!; [done..|].
    by eapply collectLoop_ok_clean.
  - intros pattern name err Hm. simpl. by rewrite Hm.
Qed.

End collector_errors.

(** ** Runs of the collector on the project [tables.project] *)

(** The walk of [src] and the start point [src/a.go] both lead to
    [src/a.go], and so does the expansion of [s*]; the list has it once. *)
Lemma collectFiles_sorted_unique_slashes_witness :
  collectFiles tables.project "." ["src"; "src/a.go"; "s*"] "*.go"
  = Ok ["src/a.go"; "src/b/c.go"]
  ∧ (StronglySorted String.le ["src/a.go"; "src/b/c.go"]
     ∧ NoDup ["src/a.go"; "src/b/c.go"]
     ∧ Forall usesForwardSlashes ["src/a.go"; "src/b/c.go"]).
Proof.
  split; [vm_compute; reflexivity|].
  apply (collectFiles_sorted_unique_slashes
           tables.project "." ["src"; "src/a.go"; "s*"] "*.go").
  vm_compute; reflexivity.
Defined.

Lemma pattern_list_decides_inclusion_witness :
  collectFiles tables.project "." ["src"] " *.md , ,*.go"
  = Ok ["src/a.go"; "src/b/c.go"; "src/notes.md"]
  ∧ (splitPatterns " *.md , ,*.go" = patterns_spec " *.md , ,*.go"
     ∧ ∃ rootAbs starts,
         Abs tables.project "." = Ok rootAbs
         ∧ expandSourceStarts tables.project rootAbs ["src"] = Ok starts
         ∧ ∀ p, p ∈ ["src/a.go"; "src/b/c.go"; "src/notes.md"]
                ↔ ∃ start, start ∈ starts
                     ∧ start_yields tables.project rootAbs
                         (patterns_spec " *.md , ,*.go") start p).
Proof.
  split; [vm_compute; reflexivity|].
  apply (pattern_list_decides_inclusion tables.project "." ["src"] " *.md , ,*.go").
  vm_compute; reflexivity.
Defined.

Example splitPatterns_example :
  splitPatterns " *.md , ,*.go" = ["*.md"; "*.go"] ∧ splitPatterns "" = [].
Proof. split; vm_compute; reflexivity. Qed.

(** White space of [unicode.IsSpace] goes from both ends: here a tab, a
    no-break space (U+00A0) and an ideographic space (U+3000); a lone byte
    [160] is no rune and stays. *)
Example TrimSpace_example :
  strings.TrimSpace (String "009" (String "194" (String "160" "a b"))
                     +:+ String "227" (String "128" (String "128" " ")))
  = "a b"
  ∧ strings.TrimSpace (String "160" "x ") = String "160" "x"
  ∧ strings.TrimSpace "   " = "".
Proof. split_and!; vm_compute; reflexivity. Qed.

(** The root [/p\[1\]] has a bracket in its name.  The entry [src] has no
    glob metacharacter, but the pattern it resolves to has one, so it is
    expanded; nothing matches, and the entry gives no start point. *)
Lemma plain_entry_under_bracket_root_is_expanded :
  IsAbs "/p[1]" = true
  ∧ hasGlob "src" = false
  ∧ Glob tables.project (Join "/p[1]" "src") = Ok []
  ∧ expandSourceStarts tables.project "/p[1]" ["src"] = Ok []
  ∧ expandSourceStarts tables.project "/p[1]" ["src"]
    ≠ Ok [Clean (Join "/p[1]" "src")].
Proof. split_and!; vm_compute; done. Qed.

(** The pattern list holds the one malformed pattern.  Every call of
    [filepath.Match] fails with [ErrBadPattern], no stat reports not-found,
    and [collectFiles] returns the empty list and no error. *)
Lemma malformed_pattern_error_is_swallowed :
  splitPatterns "[" = ["["]
  ∧ Match "[" "a.go" = (false, Some unix.ErrBadPattern)
  ∧ expandSourceStarts tables.project "/proj" ["src"] = Ok ["/proj/src"]
  ∧ Stat tables.project "/proj/src" = Ok true
  ∧ collectFiles tables.project "." ["src"] "[" = Ok [].
Proof. split_and!; vm_compute; reflexivity. Qed.

(** A start point that is not there is passed over; one that cannot be
    looked at, or whose walk fails, is the error of the collector. *)
Example collector_errors_example :
  collectFiles tables.project "." ["missing"; "src"] "*.md" = Ok ["src/notes.md"]
  ∧ collectFiles tables.project "." ["src"; "locked/key"] ""
    = Err (Wrapped "stat /proj/locked/key: " (tables.EACCES "stat" "/proj/locked/key"))
  ∧ collectFiles tables.project "." ["locked"] ""
    = Err (Wrapped "walk /proj/locked: " (tables.EACCES "open" "/proj/locked")).
Proof. split_and!; vm_compute; reflexivity. Qed.

(** Entries are resolved, expanded and kept in order. *)
Example expandSourceStarts_example :
  expandSourceStarts tables.project "/proj" ["src/*"; "zz*"; "lib/../src"; "/abs/x/"]
  = Ok ["/proj/src/a.go"; "/proj/src/b"; "/proj/src/notes.md"; "/proj/src"; "/abs/x"].
Proof. vm_compute; reflexivity. Qed.

(** ** The tree builder *)

Section builder.
Context `{GoLib}.

Lemma tnode_eq n1 n2 :
  name n1 = name n2 → children n1 = children n2 → isFile n1 = isFile n2 →
  n1 = n2.
Proof. destruct n1, n2; simpl; by intros -> -> ->. Qed.

Lemma insertParts_cons cur part rest :
  insertParts cur (part :: rest)
  = {| name := name cur;
       children :=
         <[part := insertParts
                     (markLast rest (default (newNode part) (children cur !! part)))
                     rest]> (children cur);
       isFile := isFile cur |}.
Proof. simpl. unfold markLast. by destruct (children cur !! part). Qed.

Lemma insertParts_name cur parts : name (insertParts cur parts) = name cur.
Proof. by destruct parts. Qed.

Lemma insertParts_isFile cur parts : isFile (insertParts cur parts) = isFile cur.
Proof. by destruct parts. Qed.

Lemma insertParts_markFile cur parts :
  insertParts (markFile cur) parts = markFile (insertParts cur parts).
Proof. destruct parts; [done|]. by rewrite !insertParts_cons. Qed.

Lemma insertParts_markLast rest cur parts :
  insertParts (markLast rest cur) parts = markLast rest (insertParts cur parts).
Proof.
  unfold markLast. destruct (decide (rest = [])); [|done].
  apply insertParts_markFile.
Qed.

Lemma markLast_comm r1 r2 n :
  markLast r1 (markLast r2 n) = markLast r2 (markLast r1 n).
Proof. unfold markLast. by repeat case_decide. Qed.

Lemma markLast_idemp r n : markLast r (markLast r n) = markLast r n.
Proof. unfold markLast. by repeat case_decide. Qed.

(** Two paths can be put in in either order. *)
Lemma insertParts_comm cur parts1 parts2 :
  insertParts (insertParts cur parts1) parts2
  = insertParts (insertParts cur parts2) parts1.
Proof.
  revert cur parts2.
  induction parts1 as [|a ps IH]; intros cur [|b qs]; try done.
  rewrite !insertParts_cons. simpl. apply tnode_eq; simpl; [done| |done].
  destruct (decide (a = b)) as [->|Hne].
  - rewrite !lookup_insert_eq, !insert_insert_eq. simpl. f_equal.
    rewrite <- !insertParts_markLast, IH. f_equal. f_equal.
    apply markLast_comm.
  - rewrite !lookup_insert_ne by done. by apply insert_insert_ne.
Qed.

(** Putting a path in a second time changes nothing. *)
Lemma insertParts_idemp cur parts :
  insertParts (insertParts cur parts) parts = insertParts cur parts.
Proof.
  revert cur. induction parts as [|a ps IH]; intros cur; [done|].
  rewrite !insertParts_cons. simpl. apply tnode_eq; simpl; [done| |done].
  rewrite lookup_insert_eq, insert_insert_eq. simpl. f_equal.
  by rewrite <- insertParts_markLast, markLast_idemp, IH.
Qed.

Lemma insertPath_comm root rel1 rel2 :
  insertPath (insertPath root rel1) rel2 = insertPath (insertPath root rel2) rel1.
Proof. apply insertParts_comm. Qed.

Lemma build_permutation root paths1 paths2 :
  paths1 ≡ₚ paths2 → foldl insertPath root paths1 = foldl insertPath root paths2.
Proof.
  intros Hp. revert root.
  induction Hp as [|p l1 l2 _ IH|p q l|l1 l2 l3 _ IH1 _ IH2]; intros root; simpl.
  - done.
  - apply IH.
  - by rewrite insertPath_comm.
  - by rewrite IH1.
Qed.

Lemma build_comm_step root p paths :
  foldl insertPath (insertPath root p) paths
  = insertPath (foldl insertPath root paths) p.
Proof.
  revert root. induction paths as [|q paths IH]; intros root; simpl; [done|].
  by rewrite <- IH, insertPath_comm.
Qed.

Lemma build_absorb root p paths :
  p ∈ paths →
  insertPath (foldl insertPath root paths) p = foldl insertPath root paths.
Proof.
  revert root. induction paths as [|q paths IH]; intros root Hp.
  - by apply elem_of_nil in Hp.
  - simpl. apply elem_of_cons in Hp as [->|Hp]; [|by apply IH].
    rewrite build_comm_step. unfold insertPath. by rewrite insertParts_idemp.
Qed.

Lemma build_remove_dups root paths :
  foldl insertPath root (remove_dups paths) = foldl insertPath root paths.
Proof.
  revert root. induction paths as [|p paths IH]; intros root; simpl; [done|].
  destruct (decide_rel elem_of p paths) as [Hin|Hout].
  - by rewrite IH, build_comm_step, build_absorb.
  - simpl. apply IH.
Qed.

(** The text depends on the set of the paths only: neither their order nor
    their repetitions show. *)
Lemma renderTree_same_paths (paths1 paths2 : list string) :
  (∀ p, p ∈ paths1 ↔ p ∈ paths2) → renderTree paths1 = renderTree paths2.
Proof.
  intros Hsame. unfold renderTree, buildTree.
  rewrite <- (build_remove_dups _ paths1), <- (build_remove_dups _ paths2).
  rewrite (build_permutation _ (remove_dups paths1) (remove_dups paths2)); [done|].
  apply NoDup_Permutation; [apply NoDup_remove_dups..|].
  intros p. by rewrite !elem_of_remove_dups.
Qed.

(** C3: [renderTree] gives one and the same string for a list of paths and
    for every permutation of it. *)
Theorem renderTree_permutation (paths1 paths2 : list string) :
  paths1 ≡ₚ paths2 → renderTree paths1 = renderTree paths2.
Proof.
  intros Hp. unfold renderTree, buildTree.
  by rewrite (build_permutation _ _ _ Hp).
Qed.

End builder.

(** ** The tree renderer *)

Section renderer.
Context `{GoLib}.

(** *** Induction over nodes *)

Lemma height_child n k c : children n !! k = Some c → height c < height n.
Proof.
  destruct n as [nm m f]. simpl. intros Hc.
  apply Nat.lt_succ_r. revert k c Hc.
  apply (map_fold_weak_ind
           (λ r m, ∀ k c, m !! k = Some c → height c ≤ r)).
  - intros k c Hc. by rewrite lookup_empty in Hc.
  - intros i x m' r Hi IH k c Hc.
    destruct (decide (i = k)) as [->|Hne].
    + rewrite lookup_insert_eq in Hc. injection Hc as ->. lia.
    + rewrite lookup_insert_ne in Hc by done. specialize (IH _ _ Hc). lia.
Qed.

Lemma tnode_induction (P : tnode → Prop) :
  (∀ n, (∀ k c, children n !! k = Some c → P c) → P n) → ∀ n, P n.
Proof.
  intros Hstep n. remember (height n) as h eqn:Hh. revert n Hh.
  induction h as [h IH] using lt_wf_ind. intros n ->.
  apply Hstep. intros k c Hc. apply (IH (height c)); [|done].
  by eapply height_child.
Qed.

(** *** [sortedKeys] *)

Lemma partition_loop (kvs : list (string * tnode)) dirs files :
  foldl (λ (df : list string * list string) kv,
           if isDir kv.2 then (df.1 ++ [kv.1], df.2)
           else (df.1, df.2 ++ [kv.1]))
        (dirs, files) kvs
  = (dirs ++ (filter (λ kv, isDir kv.2 = true) kvs).*1,
     files ++ (filter (λ kv, isDir kv.2 = false) kvs).*1).
Proof.
  revert dirs files. induction kvs as [|kv kvs IH]; intros dirs files; simpl.
  - by rewrite !app_nil_r.
  - rewrite !filter_cons. destruct (isDir kv.2) eqn:E; simpl.
    + rewrite IH. destruct (decide (true = false)); [done|].
      destruct (decide (true = true)); [|done]. simpl.
      by rewrite <- app_assoc.
    + rewrite IH. destruct (decide (false = true)); [done|].
      destruct (decide (false = false)); [|done]. simpl.
      by rewrite <- app_assoc.
Qed.

Lemma keys_loop (kvs : list (string * tnode)) keys :
  foldl (λ keys kv, keys ++ [kv.1]) keys kvs = keys ++ kvs.*1.
Proof.
  revert keys. induction kvs as [|kv kvs IH]; intros keys; simpl.
  - by rewrite app_nil_r.
  - by rewrite IH, <- app_assoc.
Qed.

Lemma sortedKeysOf_dirsFirst kvs :
  sortedKeysOf kvs true
  = sort_Strings (filter (λ kv, isDir kv.2 = true) kvs).*1
    ++ sort_Strings (filter (λ kv, isDir kv.2 = false) kvs).*1.
Proof. unfold sortedKeysOf. simpl. by rewrite partition_loop. Qed.

(** The order in which [range] gives the pairs of the map does not show
    in the result. *)
Lemma sortedKeysOf_order kvs kvs' dirsFirst :
  kvs ≡ₚ kvs' → sortedKeysOf kvs dirsFirst = sortedKeysOf kvs' dirsFirst.
Proof.
  intros Hp. destruct dirsFirst.
  - rewrite !sortedKeysOf_dirsFirst.
    f_equal; apply sort_Strings_order; by rewrite Hp.
  - unfold sortedKeysOf. simpl. rewrite !keys_loop. simpl.
    apply sort_Strings_order. by rewrite Hp.
Qed.

(** A key of [sortedKeys] is a key of the map, in the first group if its
    node is a directory and in the second if not. *)
Lemma elem_of_dir_keys (m : gmap string tnode) b k :
  k ∈ sort_Strings (filter (λ kv, isDir kv.2 = b) (map_to_list m)).*1
  ↔ ∃ c, m !! k = Some c ∧ isDir c = b.
Proof.
  rewrite sort_Strings_elem, list_elem_of_fmap. split.
  - intros ([k' c] & -> & [Hd Hkc%elem_of_map_to_list]%list_elem_of_filter).
    by exists c.
  - intros (c & Hc & Hd). exists (k, c). split; [done|].
    apply list_elem_of_filter. split; [done|by apply elem_of_map_to_list].
Qed.

Lemma sortedKeys_groups (m : gmap string tnode) :
  sortedKeys m true
  = sort_Strings (filter (λ kv, isDir kv.2 = true) (map_to_list m)).*1
    ++ sort_Strings (filter (λ kv, isDir kv.2 = false) (map_to_list m)).*1.
Proof. apply sortedKeysOf_dirsFirst. Qed.

Lemma sortedKeys_elem (m : gmap string tnode) k :
  k ∈ sortedKeys m true ↔ is_Some (m !! k).
Proof.
  rewrite sortedKeys_groups, elem_of_app, !elem_of_dir_keys. split.
  - intros [(c & -> & _)|(c & -> & _)]; by eexists.
  - intros [c Hc]. destruct (isDir c) eqn:E; [left|right]; by exists c.
Qed.

(** *** From the text to the entries *)

Lemma append_empty_r (s : string) : s +:+ "" = s.
Proof.
  induction s as [|c s IH]; [done|].
  change (String c s +:+ "") with (String c (s +:+ "")). by rewrite IH.
Qed.

Lemma layoutNode_unfold n :
  layoutNode n
  = if isDir n then Entry (name n) true (kids n) else Entry (name n) false [].
Proof. by destruct n. Qed.

Lemma label_layoutNode n : label (layoutNode n) = name n.
Proof. rewrite layoutNode_unfold. by destruct (isDir n). Qed.

Lemma slash_layoutNode n : slash (layoutNode n) = isDir n.
Proof. rewrite layoutNode_unfold. by destruct (isDir n). Qed.

Lemma below_layoutNode n :
  below (layoutNode n) = if isDir n then kids n else [].
Proof. rewrite layoutNode_unfold. by destruct (isDir n). Qed.

(** [renderChild] on the map of what the children render is the call of
    [renderNode] on the child looked up in the node's own map. *)
Lemma renderChild_lookup (m : gmap string tnode) nm prefix last :
  renderChild (renderNode <$> m) nm prefix last
  = match m !! nm with
    | Some child => renderNode child prefix last
    | None => ""
    end.
Proof. unfold renderChild. rewrite lookup_fmap. by destruct (m !! nm). Qed.

Lemma renderNode_unfold n prefix isLast :
  renderNode n prefix isLast
  = if isDir n then
      (prefix +:+ (if isLast then "└── " else "├── ") +:+ name n +:+ "/" +:+ nl)
      +:+ renderEach (renderChild (renderNode <$> children n))
            (sortedKeys (children n) true)
            (if isLast then prefix +:+ "    " else prefix +:+ "│   ")
    else prefix +:+ (if isLast then "└── " else "├── ") +:+ name n +:+ nl.
Proof. by destruct n. Qed.

Lemma printEntry_unfold l s ks prefix isLast :
  printEntry (Entry l s ks) prefix isLast
  = (prefix +:+ (if isLast then "└── " else "├── ") +:+ l
       +:+ (if s then "/" +:+ nl else nl))
    +:+ printEntries ks (if isLast then prefix +:+ "    " else prefix +:+ "│   ").
Proof.
  simpl. f_equal. induction ks as [|e ks IH]; [done|]. simpl. by rewrite IH.
Qed.

Lemma entriesOf_cons (sub : gmap string entry) k names e :
  sub !! k = Some e → entriesOf sub (k :: names) = e :: entriesOf sub names.
Proof. unfold entriesOf. simpl. by intros ->. Qed.

Lemma entriesOf_app (sub : gmap string entry) names1 names2 :
  entriesOf sub (names1 ++ names2) = entriesOf sub names1 ++ entriesOf sub names2.
Proof. apply omap_app. Qed.

Lemma entriesOf_nil_iff (m : gmap string tnode) names :
  (∀ k, k ∈ names → is_Some (m !! k)) →
  entriesOf (layoutNode <$> m) names = [] ↔ names = [].
Proof.
  intros Hin. destruct names as [|k names]; [done|].
  destruct (Hin k) as [c Hc]; [left|].
  rewrite (entriesOf_cons _ _ _ (layoutNode c)); [done|].
  by rewrite lookup_fmap, Hc.
Qed.

Lemma renderEach_entries (m : gmap string tnode) names prefix :
  (∀ k c, m !! k = Some c →
     ∀ pfx last, renderNode c pfx last = printEntry (layoutNode c) pfx last) →
  (∀ k, k ∈ names → is_Some (m !! k)) →
  renderEach (renderChild (renderNode <$> m)) names prefix
  = printEntries (entriesOf (layoutNode <$> m) names) prefix.
Proof.
  intros Hsub. induction names as [|k names IH]; intros Hin; [done|].
  destruct (Hin k) as [c Hc]; [left|].
  rewrite (entriesOf_cons _ _ _ (layoutNode c)) by by rewrite lookup_fmap, Hc.
  simpl. unfold renderChild at 1. rewrite lookup_fmap, Hc. simpl.
  rewrite (Hsub _ _ Hc), IH by (intros; apply Hin; by right).
  do 2 f_equal. apply bool_decide_ext. symmetry.
  apply entriesOf_nil_iff. intros; apply Hin; by right.
Qed.

(** What [renderNode] writes is the text of the node's entry. *)
Lemma renderNode_layout n prefix isLast :
  renderNode n prefix isLast = printEntry (layoutNode n) prefix isLast.
Proof.
  revert prefix isLast. induction n as [n IH] using tnode_induction.
  intros prefix isLast.
  rewrite renderNode_unfold, layoutNode_unfold. destruct (isDir n).
  - rewrite printEntry_unfold. f_equal. unfold kids.
    apply renderEach_entries; [done|]. intros k. by rewrite sortedKeys_elem.
  - rewrite printEntry_unfold. simpl. by rewrite append_empty_r.
Qed.

Lemma renderTree_layout paths :
  renderTree paths = printEntries (layoutTree paths) "".
Proof.
  unfold renderTree, layoutTree. apply renderEach_entries.
  - intros. apply renderNode_layout.
  - intros k. by rewrite sortedKeys_elem.
Qed.

(** *** The order of the entries *)

Lemma named_child n k c :
  named n → children n !! k = Some c → name c = k ∧ named c.
Proof. intros [n' Hn]. apply Hn. Qed.

Lemma entries_group (m : gmap string tnode) names b :
  (∀ k, k ∈ names → ∃ c, m !! k = Some c ∧ isDir c = b ∧ name c = k) →
  label <$> entriesOf (layoutNode <$> m) names = names
  ∧ Forall (λ e, slash e = b) (entriesOf (layoutNode <$> m) names).
Proof.
  induction names as [|k names IH]; intros Hin; [done|].
  destruct (Hin k) as (c & Hc & Hd & Hn); [left|].
  rewrite (entriesOf_cons _ _ _ (layoutNode c)) by by rewrite lookup_fmap, Hc.
  destruct IH as [IH1 IH2]; [intros; apply Hin; by right|]. split.
  - by rewrite fmap_cons, label_layoutNode, Hn, IH1.
  - constructor; [by rewrite slash_layoutNode|done].
Qed.

Lemma elem_of_entriesOf (m : gmap string tnode) names e :
  e ∈ entriesOf (layoutNode <$> m) names →
  ∃ k c, m !! k = Some c ∧ e = layoutNode c.
Proof.
  unfold entriesOf. intros (k & _ & Hk)%list_elem_of_omap.
  rewrite lookup_fmap in Hk. destruct (m !! k) as [c|] eqn:Hc; [|done].
  exists k, c. split; [done|]. by injection Hk.
Qed.

Lemma level_ordered_kids n : named n → level_ordered (kids n).
Proof.
  intros Hn. unfold kids. rewrite sortedKeys_groups, entriesOf_app.
  set (ds := sort_Strings (filter (λ kv, isDir kv.2 = true)
                             (map_to_list (children n))).*1).
  set (fs := sort_Strings (filter (λ kv, isDir kv.2 = false)
                             (map_to_list (children n))).*1).
  destruct (entries_group (children n) ds true) as [Hd1 Hd2].
  { intros k (c & Hc & Hd)%elem_of_dir_keys. exists c.
    split_and!; [done..|]. by apply (named_child n). }
  destruct (entries_group (children n) fs false) as [Hf1 Hf2].
  { intros k (c & Hc & Hd)%elem_of_dir_keys. exists c.
    split_and!; [done..|]. by apply (named_child n). }
  eexists _, _. split_and!; [done..| |].
  - rewrite Hd1. apply sort_Strings_sorted.
  - rewrite Hf1. apply sort_Strings_sorted.
Qed.

Lemma level_ordered_nil : level_ordered [].
Proof. exists [], []. split_and!; by try constructor. Qed.

Lemma ordered_below_unfold l s ks :
  ordered_below (Entry l s ks) ↔ level_ordered ks ∧ Forall ordered_below ks.
Proof.
  simpl. apply and_iff_compat_l.
  induction ks as [|e ks IH]; [by split|].
  rewrite Forall_cons. by rewrite IH.
Qed.

Lemma ordered_below_layout n : named n → ordered_below (layoutNode n).
Proof.
  induction n as [n IH] using tnode_induction. intros Hn.
  rewrite layoutNode_unfold. destruct (isDir n); apply ordered_below_unfold.
  - split; [by apply level_ordered_kids|].
    apply Forall_forall. intros e (k & c & Hc & ->)%elem_of_entriesOf.
    eapply IH; [done|]. by eapply named_child.
  - split; [apply level_ordered_nil|constructor].
Qed.

(** *** The trees [renderTree] builds are named *)

Lemma named_newNode nm : named (newNode nm).
Proof. constructor. simpl. intros k c Hc. by rewrite lookup_empty in Hc. Qed.

Lemma named_markLast rest n : named n → named (markLast rest n).
Proof.
  unfold markLast. destruct (decide (rest = [])); [|done].
  intros [n' Hn]. by constructor.
Qed.

Lemma named_insertParts cur parts : named cur → named (insertParts cur parts).
Proof.
  revert cur. induction parts as [|part rest IH]; intros cur Hcur; [done|].
  rewrite insertParts_cons. constructor. simpl. intros k c.
  destruct (decide (part = k)) as [->|Hne].
  - rewrite lookup_insert_eq. intros [= <-]. split.
    + rewrite insertParts_name. unfold markLast.
      destruct (children cur !! k) as [c0|] eqn:Hc0; simpl.
      * destruct (named_child _ _ _ Hcur Hc0) as [Hn _].
        by destruct (decide (rest = [])).
      * by destruct (decide (rest = [])).
    + apply IH, named_markLast.
      destruct (children cur !! k) as [c0|] eqn:Hc0; simpl.
      * by destruct (named_child _ _ _ Hcur Hc0).
      * apply named_newNode.
  - rewrite lookup_insert_ne by done. by apply named_child.
Qed.

Lemma named_build root paths : named root → named (foldl insertPath root paths).
Proof.
  revert root. induction paths as [|p paths IH]; intros root Hr; [done|].
  simpl. apply IH. by apply named_insertParts.
Qed.

Lemma named_buildTree paths : named (buildTree paths).
Proof. apply named_build, named_newNode. Qed.

(** C2: the text [renderTree] returns is the text of its entries, and at
    every level of these the entries that end in a slash, the directories,
    come before the others, the files, and the names of each group ascend
    in Go's string order. *)
Theorem renderTree_directories_first (paths : list string) :
  renderTree paths = printEntries (layoutTree paths) ""
  ∧ all_levels_ordered (layoutTree paths).
Proof.
  split; [apply renderTree_layout|].
  pose proof (named_buildTree paths) as Hn. split.
  - by apply (level_ordered_kids (buildTree paths)).
  - apply Forall_forall. intros e (k & c & Hc & ->)%elem_of_entriesOf.
    apply ordered_below_layout. by eapply named_child.
Qed.

End renderer.

(** ** A path that is a prefix of another *)

Section prefixes.
Context `{GoLib}.

(** *** The nodes of the tree that was built *)

Lemma nodeAt_insert_cons t a ps b rs :
  nodeAt (insertParts t (a :: ps)) (b :: rs)
  = if decide (a = b)
    then nodeAt (insertParts
                   (markLast ps (default (newNode a) (children t !! a))) ps) rs
    else nodeAt t (b :: rs).
Proof.
  rewrite insertParts_cons. simpl. destruct (decide (a = b)) as [->|Hne].
  - by rewrite lookup_insert_eq.
  - by rewrite lookup_insert_ne.
Qed.

Lemma nodeAt_markLast x n r : r ≠ [] → nodeAt (markLast x n) r = nodeAt n r.
Proof.
  unfold markLast. destruct r; [done|]. by destruct (decide (x = [])).
Qed.

Lemma hasNode_markLast x n r : hasNode (markLast x n) r ↔ hasNode n r.
Proof.
  unfold hasNode. destruct r as [|b rs].
  - simpl. split; intros _; by eexists.
  - by rewrite nodeAt_markLast.
Qed.

Lemma hasNode_newNode nm r : hasNode (newNode nm) r ↔ r = [].
Proof.
  unfold hasNode. destruct r as [|b rs]; simpl.
  - split; [done|]. intros _. by eexists.
  - rewrite lookup_empty. split; [by intros [? ?]|done].
Qed.

Lemma fileAt_newNode nm r : r ≠ [] → ¬ fileAt (newNode nm) r.
Proof.
  destruct r as [|b rs]; [done|]. intros _ (n & Hn & _). simpl in Hn.
  by rewrite lookup_empty in Hn.
Qed.

(** After a path is put in, the tree has the nodes it had and those along
    the path. *)
Lemma hasNode_insertParts t parts r :
  hasNode (insertParts t parts) r ↔ hasNode t r ∨ r `prefix_of` parts.
Proof.
  revert t r. induction parts as [|a ps IH]; intros t r.
  - simpl. split; [by left|]. intros [?|Hp]; [done|].
    apply prefix_nil_inv in Hp as ->. by eexists.
  - destruct r as [|b rs].
    { split; [|intros _; by eexists]. intros _. right. apply prefix_nil. }
    unfold hasNode at 1. rewrite nodeAt_insert_cons.
    destruct (decide (a = b)) as [<-|Hne].
    + fold (hasNode (insertParts
              (markLast ps (default (newNode a) (children t !! a))) ps) rs).
      rewrite IH, hasNode_markLast. unfold hasNode at 2. simpl.
      destruct (children t !! a) as [c|] eqn:Hc; simpl.
      * split; (intros [?|Hp]; [by left|right]).
        -- by apply prefix_cons.
        -- by apply prefix_cons_inv_2 in Hp.
      * rewrite hasNode_newNode. split.
        -- intros [->|Hp]; right; [apply prefix_cons, prefix_nil|].
           by apply prefix_cons.
        -- intros [[? ?]|Hp]; [done|right]. by apply prefix_cons_inv_2 in Hp.
    + split; [by left|]. intros [?|Hp]; [done|].
      by apply prefix_cons_inv_1 in Hp.
Qed.

(** After a path is put in, the nodes marked as files are those that were
    and the node at the end of the path. *)
Lemma fileAt_insertParts t parts r :
  r ≠ [] →
  fileAt (insertParts t parts) r ↔ fileAt t r ∨ r = parts.
Proof.
  revert t r. induction parts as [|a ps IH]; intros t r Hr.
  - simpl. split; [by left|]. by intros [?|?].
  - destruct r as [|b rs]; [done|].
    unfold fileAt at 1. rewrite nodeAt_insert_cons.
    destruct (decide (a = b)) as [<-|Hne].
    + set (c0 := default (newNode a) (children t !! a)).
      fold (fileAt (insertParts (markLast ps c0) ps) rs).
      assert (fileAt c0 rs ↔ fileAt t (a :: rs)) as Hc0.
      { unfold fileAt, c0. simpl.
        destruct (children t !! a) as [c|] eqn:Hc; simpl; [done|].
        split; [|by intros (? & ? & ?)]. intros (n & Hn & Hf).
        destruct rs as [|b' rs']; simpl in Hn.
        - by injection Hn as <-.
        - by rewrite lookup_empty in Hn. }
      destruct (decide (rs = [])) as [->|Hrs].
      * unfold fileAt at 1. simpl. rewrite <- Hc0. unfold fileAt. simpl. split.
        -- intros (n & [= <-] & Hf). rewrite insertParts_isFile in Hf.
           unfold markLast in Hf. destruct (decide (ps = [])) as [Hps|Hps].
           ++ right. by rewrite Hps.
           ++ left. by exists c0.
        -- intros [(n & [= <-] & Hf)|[= <-]]; eexists; (split; [done|]);
             rewrite insertParts_isFile; unfold markLast.
           ++ by destruct (decide (ps = [])).
           ++ by destruct (decide ([] = [])).
      * rewrite IH by done. unfold fileAt at 1.
        rewrite nodeAt_markLast by done. fold (fileAt c0 rs). rewrite Hc0.
        split; (intros [?|Heq]; [by left|right]); congruence.
    + fold (fileAt t (b :: rs)). split; [by left|].
      intros [?|?]; [done|congruence].
Qed.

Lemma hasNode_build root paths r :
  hasNode (foldl insertPath root paths) r
  ↔ hasNode root r ∨ ∃ p, p ∈ paths ∧ r `prefix_of` splitPath p.
Proof.
  revert root. induction paths as [|p paths IH]; intros root; simpl.
  - split; [by left|]. intros [?|(p & Hp & _)]; [done|].
    by apply elem_of_nil in Hp.
  - rewrite IH. unfold insertPath. rewrite hasNode_insertParts. split.
    + intros [[?|?]|(p' & ? & ?)]; [by left|right..].
      * exists p. split; [left|done].
      * exists p'. split; [by right|done].
    + intros [?|(p' & [->|?]%elem_of_cons & ?)];
        [by left; left|by left; right|right; by exists p'].
Qed.

Lemma fileAt_build root paths r :
  r ≠ [] →
  fileAt (foldl insertPath root paths) r
  ↔ fileAt root r ∨ ∃ p, p ∈ paths ∧ splitPath p = r.
Proof.
  intros Hr. revert root. induction paths as [|p paths IH]; intros root; simpl.
  - split; [by left|]. intros [?|(p & Hp & _)]; [done|].
    by apply elem_of_nil in Hp.
  - rewrite IH. unfold insertPath. rewrite fileAt_insertParts by done.
    split.
    + intros [[?|?]|(p' & ? & ?)]; [by left|right..].
      * exists p. split; [left|done].
      * exists p'. split; [by right|done].
    + intros [?|(p' & [->|?]%elem_of_cons & ?)];
        [by left; left|by left; right|right; by exists p'].
Qed.

(** The nodes of the tree are the prefixes of the split paths, and the
    nodes marked as files are the split paths themselves. *)
Lemma hasNode_buildTree paths r :
  hasNode (buildTree paths) r
  ↔ r = [] ∨ ∃ p, p ∈ paths ∧ r `prefix_of` splitPath p.
Proof. unfold buildTree. by rewrite hasNode_build, hasNode_newNode. Qed.

Lemma fileAt_buildTree paths r :
  r ≠ [] →
  fileAt (buildTree paths) r ↔ ∃ p, p ∈ paths ∧ splitPath p = r.
Proof.
  intros Hr. unfold buildTree. rewrite fileAt_build by done.
  split; [|by right]. intros [?|?]; [|done]. by destruct (fileAt_newNode "" r).
Qed.

End prefixes.

Section prefix_rendering.
Context `{GoLib}.

(** *** Finding an entry by its labels *)

Lemma elem_of_kids n e :
  e ∈ kids n ↔ ∃ k c, children n !! k = Some c ∧ e = layoutNode c.
Proof.
  split; [apply elem_of_entriesOf|].
  intros (k & c & Hc & ->). unfold kids, entriesOf. apply list_elem_of_omap.
  exists k. split; [apply sortedKeys_elem; by eexists|].
  by rewrite lookup_fmap, Hc.
Qed.

Lemma entryAt_nil_entries labels : entryAt [] labels = None.
Proof. by destruct labels. Qed.

(** Under a named node the entry labelled [k] is the entry of the child
    filed under [k]. *)
Lemma entryAt_kids n k r :
  named n →
  entryAt (kids n) (k :: r)
  = match children n !! k with
    | Some c =>
        if decide (r = []) then Some (layoutNode c)
        else entryAt (below (layoutNode c)) r
    | None => None
    end.
Proof.
  intros Hn. simpl.
  destruct (list_find (λ e, label e = k) (kids n)) as [[i e]|] eqn:Hf.
  - apply list_find_Some in Hf as (Hi & Hl & _).
    apply list_elem_of_lookup_2, elem_of_kids in Hi as (k' & c & Hc & ->).
    destruct (named_child _ _ _ Hn Hc) as [Hk' _].
    rewrite label_layoutNode in Hl. rewrite <- Hl, Hk'. by rewrite Hc.
  - destruct (children n !! k) as [c|] eqn:Hc; [|done]. exfalso.
    apply list_find_None in Hf. rewrite Forall_forall in Hf.
    apply (Hf (layoutNode c)).
    + apply elem_of_kids. by exists k, c.
    + rewrite label_layoutNode. by destruct (named_child _ _ _ Hn Hc).
Qed.

Lemma nodeAt_app t chain1 chain2 :
  nodeAt t (chain1 ++ chain2)
  = match nodeAt t chain1 with
    | Some n => nodeAt n chain2
    | None => None
    end.
Proof.
  revert t. induction chain1 as [|a chain1 IH]; intros t; simpl; [done|].
  destruct (children t !! a); [apply IH|done].
Qed.

Lemma nodeAt_name t chain n :
  named t → chain ≠ [] → nodeAt t chain = Some n → last chain = Some (name n).
Proof.
  revert t. induction chain as [|a chain IH]; intros t Ht Hne; [done|]. simpl.
  destruct (children t !! a) as [c|] eqn:Hc; [|done].
  destruct (named_child _ _ _ Ht Hc) as [Hname Hc'].
  destruct chain as [|b chain].
  - simpl. intros [= <-]. by rewrite Hname.
  - intros Hn. rewrite last_cons_cons. by apply (IH c).
Qed.

Lemma nodeAt_named t chain n : named t → nodeAt t chain = Some n → named n.
Proof.
  revert t. induction chain as [|a chain IH]; intros t Ht; simpl.
  - by intros [= <-].
  - destruct (children t !! a) as [c|] eqn:Hc; [|done].
    apply IH. by destruct (named_child _ _ _ Ht Hc).
Qed.

Lemma isDir_false_of_file n : isFile n = true → isDir n = false.
Proof. unfold isDir. intros ->. by rewrite andb_false_r. Qed.

Lemma isDir_true_of_child n k c :
  children n !! k = Some c → isFile n = false → isDir n = true.
Proof.
  unfold isDir. intros Hc ->. rewrite andb_true_r. apply Nat.ltb_lt.
  assert (size (children n) ≠ 0); [|lia].
  apply map_size_non_empty_iff. intros Hm. by rewrite Hm, lookup_empty in Hc.
Qed.

(** Nothing is written for the nodes below a node that is no directory. *)
Lemma entryAt_below_leaf t chain n r :
  named t → chain ≠ [] → nodeAt t chain = Some n → isDir n = false →
  r ≠ [] → entryAt (kids t) (chain ++ r) = None.
Proof.
  revert t. induction chain as [|a chain IH]; intros t Ht Hne Hn Hd Hr; [done|].
  simpl in Hn. rewrite <- app_comm_cons, entryAt_kids by done.
  destruct (children t !! a) as [c|] eqn:Hc; [|done].
  destruct (decide (chain ++ r = [])) as [Hnil|_].
  { by apply app_eq_nil in Hnil as [_ ?]. }
  rewrite below_layoutNode. destruct (named_child _ _ _ Ht Hc) as [_ Hc'].
  destruct chain as [|b chain].
  - simpl in *. injection Hn as <-. rewrite Hd. apply entryAt_nil_entries.
  - destruct (isDir c); [|apply entryAt_nil_entries]. by apply IH.
Qed.

(** A node all of whose ancestors are unmarked has its entry written. *)
Lemma entryAt_reached t chain n :
  named t → chain ≠ [] → nodeAt t chain = Some n →
  (∀ r r' c, r ≠ [] → r' ≠ [] → r ++ r' = chain →
             nodeAt t r = Some c → isFile c = false) →
  entryAt (kids t) chain = Some (layoutNode n).
Proof.
  revert t. induction chain as [|a chain IH]; intros t Ht Hne Hn Hanc; [done|].
  simpl in Hn. rewrite entryAt_kids by done.
  destruct (children t !! a) as [c|] eqn:Hc; [|done].
  destruct (named_child _ _ _ Ht Hc) as [_ Hc'].
  destruct (decide (chain = [])) as [->|Hchain].
  { simpl in Hn. by injection Hn as <-. }
  rewrite below_layoutNode.
  assert (isDir c = true) as ->.
  { destruct chain as [|b chain]; [done|]. simpl in Hn.
    destruct (children c !! b) as [c'|] eqn:Hc''; [|done].
    apply (isDir_true_of_child _ _ _ Hc'').
    apply (Hanc [a] (b :: chain)); [done..|]. simpl. by rewrite Hc. }
  apply IH; [done..|].
  intros r r' c' Hr Hr' Happ Hnode.
  apply (Hanc (a :: r) r'); [done..|by rewrite <- Happ|].
  simpl. by rewrite Hc.
Qed.

(** C10, amended: when the list holds a path and another path below it,
    the node of the first is marked as a file, is no directory although it
    has children, and [renderNode] writes for it one line without a slash
    and nothing for its children; no entry of the output is below it; and
    its own line is in the output when no path of the list is in turn a
    proper prefix of it. *)
Theorem prefix_path_is_a_leaf (paths : list string) p q ps qs :
  p ∈ paths → q ∈ paths →
  splitPath p = ps → splitPath q = ps ++ qs → qs ≠ [] →
  ∃ n,
    nodeAt (buildTree paths) ps = Some n
    ∧ last ps = Some (name n)
    ∧ isFile n = true
    ∧ children n ≠ ∅
    ∧ isDir n = false
    ∧ (∀ prefix isLast,
         renderNode n prefix isLast
         = prefix +:+ (if isLast then "└── " else "├── ") +:+ name n +:+ nl)
    ∧ renderTree paths = printEntries (layoutTree paths) ""
    ∧ (∀ r, r ≠ [] → entryAt (layoutTree paths) (ps ++ r) = None)
    ∧ ((∀ p' r, p' ∈ paths → r ≠ [] → splitPath p' ++ r ≠ ps) →
       entryAt (layoutTree paths) ps = Some (Entry (name n) false [])).
Proof.
  intros Hp Hq Hps Hqs Hne.
  assert (ps ≠ []) as Hps_ne.
  { rewrite <- Hps. apply Split_not_nil. }
  pose proof (named_buildTree paths) as Hnamed.
  destruct (proj2 (fileAt_buildTree paths ps Hps_ne)) as (n & Hn & Hfile).
  { by exists p. }
  assert (isDir n = false) as Hdir by by apply isDir_false_of_file.
  exists n. split_and!; try done.
  - by apply (nodeAt_name (buildTree paths)).
  - assert (hasNode (buildTree paths) (ps ++ qs)) as [d Hd].
    { apply hasNode_buildTree. right. exists q. by rewrite Hqs. }
    rewrite nodeAt_app, Hn in Hd. destruct qs as [|k qs]; [done|]. simpl in Hd.
    intros Hempty. by rewrite Hempty, lookup_empty in Hd.
  - intros prefix isLast. by rewrite renderNode_unfold, Hdir.
  - apply renderTree_layout.
  - intros r Hr. by apply (entryAt_below_leaf (buildTree paths) ps n).
  - intros Hfree.
    assert (layoutNode n = Entry (name n) false []) as <-.
    { by rewrite layoutNode_unfold, Hdir. }
    apply (entryAt_reached (buildTree paths)); [done..|].
    intros r r' c Hr Hr' Happ Hc.
    destruct (isFile c) eqn:Hfc; [|done]. exfalso.
    destruct (proj1 (fileAt_buildTree paths r Hr)) as (p' & Hp' & Hsplit).
    { by exists c. }
    apply (Hfree p' r'); [done..|]. by rewrite Hsplit.
Qed.

End prefix_rendering.

(** ** Renderings on Unix *)

(** Scenario A: the directory [b] comes before the file [a.go]. *)
Example renderTree_example :
  renderTree ["src/a.go"; "src/b/c.go"]
  = "└── src/" +:+ nl
    +:+ "    ├── b/" +:+ nl
    +:+ "    │   └── c.go" +:+ nl
    +:+ "    └── a.go" +:+ nl
  ∧ layoutTree ["src/a.go"; "src/b/c.go"]
    = [Entry "src" true
         [Entry "b" true [Entry "c.go" false []]; Entry "a.go" false []]].
Proof. split; vm_compute; reflexivity. Qed.

Lemma renderTree_permutation_witness :
  ["z"; "src/a.go"; "src/b/c.go"] ≡ₚ ["src/b/c.go"; "z"; "src/a.go"]
  ∧ renderTree ["z"; "src/a.go"; "src/b/c.go"]
    = renderTree ["src/b/c.go"; "z"; "src/a.go"].
Proof.
  assert (["z"; "src/a.go"; "src/b/c.go"] ≡ₚ ["src/b/c.go"; "z"; "src/a.go"])
    as Hperm.
  { symmetry. apply (Permutation_cons_append ["z"; "src/a.go"] "src/b/c.go"). }
  split; [exact Hperm|].
  apply (renderTree_permutation _ _ Hperm).
Defined.

(** The paths [a] and [a/b]: the node [a] is a leaf of the output. *)
Lemma prefix_path_is_a_leaf_witness :
  "a" ∈ ["a"; "a/b"] ∧ "a/b" ∈ ["a"; "a/b"]
  ∧ splitPath "a" = ["a"] ∧ splitPath "a/b" = ["a"] ++ ["b"] ∧ ["b"] ≠ []
  ∧ ∃ n,
      nodeAt (buildTree ["a"; "a/b"]) ["a"] = Some n
      ∧ last ["a"] = Some (name n)
      ∧ isFile n = true
      ∧ children n ≠ ∅
      ∧ isDir n = false
      ∧ (∀ prefix isLast,
           renderNode n prefix isLast
           = prefix +:+ (if isLast then "└── " else "├── ") +:+ name n +:+ nl)
      ∧ renderTree ["a"; "a/b"] = printEntries (layoutTree ["a"; "a/b"]) ""
      ∧ (∀ r, r ≠ [] → entryAt (layoutTree ["a"; "a/b"]) (["a"] ++ r) = None)
      ∧ ((∀ p' r, p' ∈ ["a"; "a/b"] → r ≠ [] → splitPath p' ++ r ≠ ["a"]) →
         entryAt (layoutTree ["a"; "a/b"]) ["a"] = Some (Entry (name n) false [])).
Proof.
  assert ("a" ∈ ["a"; "a/b"]) as H1 by (by left).
  assert ("a/b" ∈ ["a"; "a/b"]) as H2 by (right; by left).
  assert (splitPath "a" = ["a"]) as H3 by (vm_compute; reflexivity).
  assert (splitPath "a/b" = ["a"] ++ ["b"]) as H4 by (vm_compute; reflexivity).
  assert (["b"] ≠ ([] : list string)) as H5 by done.
  refine (conj H1 (conj H2 (conj H3 (conj H4 (conj H5 _))))).
  exact (prefix_path_is_a_leaf ["a"; "a/b"] "a" "a/b" ["a"] ["b"] H1 H2 H3 H4 H5).
Defined.

Example prefix_path_example :
  renderTree ["a"; "a/b"] = "└── a" +:+ nl
  ∧ renderTree ["x/a/b"; "x/a"; "x/c"]
    = "└── x/" +:+ nl +:+ "    ├── a" +:+ nl +:+ "    └── c" +:+ nl.
Proof. split; vm_compute; reflexivity. Qed.

(** The paths [a], [a/b] and [a/b/c]: [a/b] is a prefix of [a/b/c], and its
    node is not in the output at all, for it is below the leaf [a]. *)
Lemma nested_prefix_path_is_not_rendered :
  splitPath "a/b" = ["a"; "b"]
  ∧ splitPath "a/b/c" = ["a"; "b"] ++ ["c"]
  ∧ renderTree ["a"; "a/b"; "a/b/c"] = "└── a" +:+ nl
  ∧ layoutTree ["a"; "a/b"; "a/b/c"] = [Entry "a" false []]
  ∧ entryAt (layoutTree ["a"; "a/b"; "a/b/c"]) ["a"; "b"] = None.
Proof. split_and!; vm_compute; reflexivity. Qed.

(** ** The document renderer and the orchestrator *)

Section orchestrator.
Context `{GoLib} {FS : Type} `{FileSystem FS}.

Lemma sourcesLoop_app (fs : FS) projectRoot srcs1 srcs2 b :
  sourcesLoop fs projectRoot (srcs1 ++ srcs2) b
  = match sourcesLoop fs projectRoot srcs1 b with
    | Ok b1 => sourcesLoop fs projectRoot srcs2 b1
    | Err e => Err e
    end.
Proof.
  revert b. induction srcs1 as [|src srcs1 IH]; intros b; simpl; [done|].
  destruct (collectFiles _ _ _ _) as [files|]; [|done].
  destruct (decide (ToLower (Type_ src) = "tree")).
  { destruct (length files =? 0); apply IH. }
  destruct (decide (ToLower (Type_ src) = "file")); [|done].
  destruct (length files =? 0); [apply IH|].
  destruct (filesLoop _ _ _ _); [apply IH|done].
Qed.

(** C7, amended: for a source whose type, in lower case, is neither "tree"
    nor "file", and once the sources before it are rendered: if the
    collection for the source succeeds, rendering the document fails with
    the "unknown source type" error that names the type, and the document
    is not written; if the collection fails, rendering fails with the
    collection's error. *)
Theorem unknown_source_type_fails (fs : FS) projectRoot doc
    before src after b1 :
  Sources doc = before ++ src :: after →
  sourcesLoop fs projectRoot before (heading doc) = Ok b1 →
  ToLower (Type_ src) ≠ "tree" →
  ToLower (Type_ src) ≠ "file" →
  match collectFiles fs projectRoot (SourcePaths src) (FilePattern src) with
  | Ok _ =>
      renderDocument fs projectRoot doc = Err (unknownSourceType src)
      ∧ generateDocument fs projectRoot doc
        = (fs, [], Some (unknownSourceType src))
  | Err err =>
      renderDocument fs projectRoot doc
      = Err (Wrapped ("collect files for " +:+ Quote (Type_ src) +:+ ": ") err)
  end.
Proof.
  intros Hsrcs Hbefore Htree Hfile.
  assert (renderDocument fs projectRoot doc
          = sourcesLoop fs projectRoot (src :: after) b1) as Hdoc.
  { unfold renderDocument. by rewrite Hsrcs, sourcesLoop_app, Hbefore. }
  unfold generateDocument. rewrite Hdoc. simpl.
  destruct (collectFiles _ _ _ _) as [files|err]; [|done].
  destruct (decide (ToLower (Type_ src) = "tree")); [done|].
  destruct (decide (ToLower (Type_ src) = "file")); [done|].
  done.
Qed.

Lemma sourcesLoop_sameButExcludes (fs : FS) projectRoot srcs1 srcs2 b :
  Forall2 sameButExcludes srcs1 srcs2 →
  sourcesLoop fs projectRoot srcs1 b = sourcesLoop fs projectRoot srcs2 b.
Proof.
  intros Hsame. revert b.
  induction Hsame as [|s1 s2 l1 l2 (Ht & Hp & Hf) _ IH]; intros b; [done|].
  simpl. rewrite Ht, Hp, Hf.
  destruct (collectFiles _ _ _ _) as [files|]; [|done].
  destruct (decide (ToLower (Type_ s2) = "tree")).
  { destruct (length files =? 0); apply IH. }
  destruct (decide (ToLower (Type_ s2) = "file")); [|done].
  destruct (length files =? 0); [apply IH|].
  destruct (filesLoop _ _ _ _); [apply IH|done].
Qed.

(** C8: over one file system, two sources that differ at most in their
    [excludePaths] have the same list of files collected, and documents
    made of such sources are rendered to the same text. *)
Theorem excludePaths_not_applied (fs : FS) projectRoot s1 s2 :
  sameButExcludes s1 s2 →
  collectFiles fs projectRoot (SourcePaths s1) (FilePattern s1)
  = collectFiles fs projectRoot (SourcePaths s2) (FilePattern s2)
  ∧ ∀ rest1 rest2 b,
      Forall2 sameButExcludes rest1 rest2 →
      sourcesLoop fs projectRoot (s1 :: rest1) b
      = sourcesLoop fs projectRoot (s2 :: rest2) b.
Proof.
  intros Hsame. split.
  - destruct Hsame as (_ & -> & ->). done.
  - intros rest1 rest2 b Hrest. apply sourcesLoop_sameButExcludes.
    by constructor.
Qed.

Lemma generateLoop_app (fs : FS) projectRoot docs1 docs2 :
  generateLoop fs projectRoot (docs1 ++ docs2)
  = match generateLoop fs projectRoot docs1 with
    | (fs1, ev1, None) =>
        let '(fs2, ev2, r) := generateLoop fs1 projectRoot docs2 in
        (fs2, ev1 ++ ev2, r)
    | (fs1, ev1, Some err) => (fs1, ev1, Some err)
    end.
Proof.
  revert fs. induction docs1 as [|doc docs1 IH]; intros fs; simpl.
  - by destruct (generateLoop fs projectRoot docs2) as [[fs2 ev2] r].
  - destruct (generateDocument fs projectRoot doc) as [[fs' ev] [err|]]; [done|].
    rewrite IH.
    destruct (generateLoop fs' projectRoot docs1) as [[fs1 ev1] [err|]]; [done|].
    destruct (generateLoop fs1 projectRoot docs2) as [[fs2 ev2] r].
    by rewrite app_assoc.
Qed.

Lemma ensureDir_writes (fs : FS) dir fs' ev r :
  ensureDir fs dir = (fs', ev, r) → writtenPaths ev = [].
Proof.
  unfold ensureDir. case_decide; [by intros [= <- <- <-]|].
  destruct (MkdirAll fs dir) as [fs1 [err|]].
  - destruct (Stat fs1 dir) as [[|]|]; by intros [= <- <- <-].
  - by intros [= <- <- <-].
Qed.

(** A document that fails is written at most once, and only if it is the
    write that fails; a document that succeeds is written once. *)
Lemma generateDocument_writes (fs : FS) projectRoot doc fs' ev r :
  generateDocument fs projectRoot doc = (fs', ev, r) →
  match r with
  | None => writtenPaths ev = [OutputPath doc]
  | Some _ => writtenPaths ev = [] ∨ writtenPaths ev = [OutputPath doc]
  end.
Proof.
  unfold generateDocument.
  destruct (renderDocument fs projectRoot doc) as [text|err].
  - destruct (ensureDir fs _) as [[fs1 ev1] [err|]] eqn:E.
    + intros [= <- <- <-]. left. by eapply ensureDir_writes.
    + apply ensureDir_writes in E.
      destruct (WriteFile fs1 _ text) as [fs2 [err|]]; intros [= <- <- <-];
        unfold writtenPaths in *; rewrite omap_app, E; simpl; by try right.
  - intros [= <- <- <-]. by left.
Qed.

Lemma generateLoop_writes (fs : FS) projectRoot docs fs' ev :
  generateLoop fs projectRoot docs = (fs', ev, None) →
  writtenPaths ev = OutputPath <$> docs.
Proof.
  revert fs ev. induction docs as [|doc docs IH]; intros fs ev; simpl.
  - by intros [= <- <-].
  - destruct (generateDocument fs projectRoot doc) as [[fs1 ev1] [err|]] eqn:E;
      [done|].
    apply generateDocument_writes in E.
    destruct (generateLoop fs1 projectRoot docs) as [[fs2 ev2] r] eqn:E2.
    intros [= <- <- ->]. unfold writtenPaths in *.
    rewrite omap_app, E. simpl. f_equal. by apply (IH fs1).
Qed.

(** C9: [Generate] takes the documents in the order of the configuration.
    When the documents before [doc] have been written and [doc] fails, in
    its rendering, in making its directory or in its write, the run ends
    there with that error: its state and its log are those of the documents
    before [doc] followed by the failed attempt, whatever documents come
    after; each document before [doc] has been written once, in order, and
    nothing is taken back; and when it is the rendering that fails, the
    state is left as the last write made it. *)
Theorem generate_stops_at_first_failure (c : Config) projectRoot (fs : FS)
    before doc after fs1 ev1 fs2 ev2 err :
  Documents c = before ++ doc :: after →
  generateLoop fs projectRoot before = (fs1, ev1, None) →
  generateDocument fs1 projectRoot doc = (fs2, ev2, Some err) →
  Generate c projectRoot fs = (fs2, ev1 ++ ev2, Some err)
  ∧ writtenPaths ev1 = OutputPath <$> before
  ∧ (writtenPaths ev2 = [] ∨ writtenPaths ev2 = [OutputPath doc])
  ∧ (∀ e, renderDocument fs1 projectRoot doc = Err e →
          fs2 = fs1 ∧ ev2 = [] ∧ err = e).
Proof.
  intros Hdocs Hbefore Hdoc. split_and!.
  - unfold Generate. rewrite Hdocs, generateLoop_app, Hbefore. simpl.
    by rewrite Hdoc.
  - by eapply generateLoop_writes.
  - by apply generateDocument_writes in Hdoc.
  - intros e He. unfold generateDocument in Hdoc. rewrite He in Hdoc.
    by injection Hdoc as <- <- <-.
Qed.

End orchestrator.

(** ** Runs of the orchestrator *)

Lemma unknown_source_type_fails_witness :
  Sources tables.docTwo
  = [mkSource "Tree" ["src"] [] "*.md"] ++ mkSource "bogus" ["src"] [] "" :: []
  ∧ sourcesLoop tables.project "." [mkSource "Tree" ["src"] [] "*.md"]
      (heading tables.docTwo)
    = Ok ("# Two" +:+ nl +:+ nl +:+ "```" +:+ nl
          +:+ "└── src/" +:+ nl +:+ "    └── notes.md" +:+ nl
          +:+ nl +:+ "```" +:+ nl +:+ nl)
  ∧ ToLower "bogus" ≠ "tree"
  ∧ ToLower "bogus" ≠ "file"
  ∧ match collectFiles tables.project "." ["src"] "" with
    | Ok _ =>
        renderDocument tables.project "." tables.docTwo
        = Err (unknownSourceType (mkSource "bogus" ["src"] [] ""))
        ∧ generateDocument tables.project "." tables.docTwo
          = (tables.project, [],
             Some (unknownSourceType (mkSource "bogus" ["src"] [] "")))
    | Err err =>
        renderDocument tables.project "." tables.docTwo
        = Err (Wrapped ("collect files for " +:+ Quote "bogus" +:+ ": ") err)
    end.
Proof.
  assert (Sources tables.docTwo
          = [mkSource "Tree" ["src"] [] "*.md"]
            ++ mkSource "bogus" ["src"] [] "" :: []) as H1 by reflexivity.
  assert (sourcesLoop tables.project "." [mkSource "Tree" ["src"] [] "*.md"]
            (heading tables.docTwo)
          = Ok ("# Two" +:+ nl +:+ nl +:+ "```" +:+ nl
                +:+ "└── src/" +:+ nl +:+ "    └── notes.md" +:+ nl
                +:+ nl +:+ "```" +:+ nl +:+ nl)) as H2
    by (vm_compute; reflexivity).
  assert (ToLower "bogus" ≠ "tree") as H3 by (vm_compute; discriminate).
  assert (ToLower "bogus" ≠ "file") as H4 by (vm_compute; discriminate).
  refine (conj H1 (conj H2 (conj H3 (conj H4 _)))).
  exact (unknown_source_type_fails tables.project "." tables.docTwo
           _ (mkSource "bogus" ["src"] [] "") _ _ H1 H2 H3 H4).
Defined.

Example unknown_source_type_example :
  renderDocument tables.project "." tables.docTwo
  = Err (NewError ("unknown source type: " +:+ unix.dquote +:+ "bogus" +:+ unix.dquote)).
Proof. vm_compute; reflexivity. Qed.

(** The type is unknown, but the path of the source cannot be looked at:
    the collection fails first, and its error is the one returned. *)
Lemma unknown_type_after_failed_collection :
  Sources tables.lockedDoc = [mkSource "bogus" ["locked/key"] [] ""]
  ∧ ToLower "bogus" ≠ "tree"
  ∧ ToLower "bogus" ≠ "file"
  ∧ renderDocument tables.project "." tables.lockedDoc
    = Err (Wrapped ("collect files for " +:+ Quote "bogus" +:+ ": ")
             (Wrapped "stat /proj/locked/key: "
                (tables.EACCES "stat" "/proj/locked/key")))
  ∧ renderDocument tables.project "." tables.lockedDoc
    ≠ Err (unknownSourceType (mkSource "bogus" ["locked/key"] [] "")).
Proof. split_and!; vm_compute; done. Qed.

Lemma excludePaths_not_applied_witness :
  sameButExcludes
    (mkSource "tree" ["src"] ["vendor"; "node_modules"; ".git"] "*.php,*.twig")
    (mkSource "tree" ["src"] [] "*.php,*.twig")
  ∧ (collectFiles tables.phpProject "." ["src"] "*.php,*.twig"
     = collectFiles tables.phpProject "." ["src"] "*.php,*.twig"
     ∧ ∀ rest1 rest2 b,
         Forall2 sameButExcludes rest1 rest2 →
         sourcesLoop tables.phpProject "."
           (mkSource "tree" ["src"] ["vendor"; "node_modules"; ".git"]
              "*.php,*.twig" :: rest1) b
         = sourcesLoop tables.phpProject "."
             (mkSource "tree" ["src"] [] "*.php,*.twig" :: rest2) b).
Proof.
  assert (sameButExcludes
            (mkSource "tree" ["src"] ["vendor"; "node_modules"; ".git"]
               "*.php,*.twig")
            (mkSource "tree" ["src"] [] "*.php,*.twig")) as Hsame by done.
  split; [exact Hsame|].
  exact (excludePaths_not_applied tables.phpProject "." _ _ Hsame).
Defined.

(** The file under [vendor] is collected although the source excludes
    [vendor]. *)
Example excluded_file_is_collected :
  collectFiles tables.phpProject "."
    (SourcePaths (mkSource "tree" ["src"] ["vendor"] "*.php"))
    (FilePattern (mkSource "tree" ["src"] ["vendor"] "*.php"))
  = Ok ["src/index.php"; "src/vendor/lib.php"].
Proof. vm_compute; reflexivity. Qed.

Lemma generate_stops_at_first_failure_witness :
  Documents tables.threeDocs = [tables.docOne] ++ tables.docTwo :: [tables.docThree]
  ∧ generateLoop tables.project "." [tables.docOne]
    = (tables.afterOne, tables.logOne, None)
  ∧ generateDocument tables.afterOne "." tables.docTwo
    = (tables.afterOne, [], Some (unknownSourceType (mkSource "bogus" ["src"] [] "")))
  ∧ (Generate tables.threeDocs "." tables.project
     = (tables.afterOne, tables.logOne ++ [],
        Some (unknownSourceType (mkSource "bogus" ["src"] [] "")))
     ∧ writtenPaths tables.logOne = OutputPath <$> [tables.docOne]
     ∧ (writtenPaths [] = [] ∨ writtenPaths [] = [OutputPath tables.docTwo])
     ∧ (∀ e, renderDocument tables.afterOne "." tables.docTwo = Err e →
             tables.afterOne = tables.afterOne
             ∧ ([] : list event) = []
             ∧ unknownSourceType (mkSource "bogus" ["src"] [] "") = e)).
Proof.
  assert (Documents tables.threeDocs
          = [tables.docOne] ++ tables.docTwo :: [tables.docThree]) as H1
    by reflexivity.
  assert (generateLoop tables.project "." [tables.docOne]
          = (tables.afterOne, tables.logOne, None)) as H2
    by (vm_compute; reflexivity).
  assert (generateDocument tables.afterOne "." tables.docTwo
          = (tables.afterOne, [],
             Some (unknownSourceType (mkSource "bogus" ["src"] [] "")))) as H3
    by (vm_compute; reflexivity).
  refine (conj H1 (conj H2 (conj H3 _))).
  exact (generate_stops_at_first_failure tables.threeDocs "." tables.project
           _ _ _ _ _ _ _ _ H1 H2 H3).
Defined.

(** After the run over the three documents the first is in place, and
    neither the second nor the third has been written. *)
Example generate_three_documents :
  let '(fs, log, r) := Generate tables.threeDocs "." tables.project in
  dom (tables.written fs) = {[ "/proj/out/one.md" ]}
  ∧ writtenPaths log = ["out/one.md"]
  ∧ r = Some (unknownSourceType (mkSource "bogus" ["src"] [] "")).
Proof. vm_compute. split_and!; reflexivity. Qed.

(** A write that fails ends the run as well, and the document written
    before it stays. *)
Example generate_write_failure :
  let '(fs, log, r) :=
    Generate (mkConfig "." [tables.docOne; tables.readOnlyDoc; tables.docThree])
      "." tables.project in
  dom (tables.written fs) = {[ "/proj/out/one.md" ]}
  ∧ writtenPaths log = ["out/one.md"; "/ro/out.md"]
  ∧ r = Some (Wrapped "write output /ro/out.md: " (tables.EACCES "open" "/ro/out.md")).
Proof. vm_compute. split_and!; reflexivity. Qed.

(** * Further properties *)

(** ** The tree and its rendering *)

Section tree_facts.
Context `{GoLib}.

(** X1: the text of [renderTree] depends on the set of the paths only: two
    lists with the same members, in any order and with any repetitions, are
    rendered to the same string. *)
Theorem renderTree_set_of_paths (paths1 paths2 : list string) :
  (∀ p, p ∈ paths1 ↔ p ∈ paths2) → renderTree paths1 = renderTree paths2.
Proof. apply renderTree_same_paths. Qed.

Lemma build_root root paths :
  name (foldl insertPath root paths) = name root
  ∧ isFile (foldl insertPath root paths) = isFile root.
Proof.
  revert root. induction paths as [|p paths IH]; intros root; simpl; [done|].
  destruct (IH (insertPath root p)) as [-> ->]. unfold insertPath.
  by rewrite insertParts_name, insertParts_isFile.
Qed.

Lemma buildTree_root paths :
  name (buildTree paths) = "" ∧ isFile (buildTree paths) = false.
Proof. apply (build_root (newNode "")). Qed.

(** X2: the tree built from a list of paths has a node at a chain of names
    exactly when the chain is empty (the root) or a prefix of one of the
    split paths; a node below the root is marked as a file exactly when its
    chain is one of the split paths; the root has the empty name and is
    never marked. *)
Theorem buildTree_nodes (paths chain : list string) :
  (hasNode (buildTree paths) chain
   ↔ chain = [] ∨ ∃ p, p ∈ paths ∧ chain `prefix_of` splitPath p)
  ∧ (chain ≠ [] →
     (fileAt (buildTree paths) chain ↔ ∃ p, p ∈ paths ∧ splitPath p = chain))
  ∧ name (buildTree paths) = ""
  ∧ isFile (buildTree paths) = false.
Proof.
  split_and!.
  - apply hasNode_buildTree.
  - apply fileAt_buildTree.
  - apply buildTree_root.
  - apply buildTree_root.
Qed.

(** An entry of the output is the entry of the node at its chain. *)
Lemma entryAt_node t chain e :
  named t → entryAt (kids t) chain = Some e →
  ∃ n, nodeAt t chain = Some n ∧ e = layoutNode n.
Proof.
  revert t. induction chain as [|a chain IH]; intros t Ht; [done|].
  rewrite entryAt_kids by done. simpl.
  destruct (children t !! a) as [c|] eqn:Hc; [|done].
  destruct (named_child _ _ _ Ht Hc) as [_ Hc'].
  destruct (decide (chain = [])) as [->|Hne].
  - intros [= <-]. by exists c.
  - rewrite below_layoutNode. destruct (isDir c).
    + by apply IH.
    + by rewrite entryAt_nil_entries.
Qed.

(** A node of a built tree that has no child is the end of a path. *)
Lemma buildTree_leaf_is_file paths chain n :
  chain ≠ [] → nodeAt (buildTree paths) chain = Some n →
  isFile n = false → isDir n = true.
Proof.
  intros Hne Hn Hfile.
  destruct (proj1 (hasNode_buildTree paths chain)) as [?|(p & Hp & [r Hr])];
    [by eexists|done|].
  destruct r as [|k r].
  - exfalso. rewrite app_nil_r in Hr.
    assert (fileAt (buildTree paths) chain) as (n' & Hn' & Hf').
    { apply fileAt_buildTree; [done|]. by exists p. }
    congruence.
  - assert (hasNode (buildTree paths) (chain ++ [k])) as [c Hc].
    { apply hasNode_buildTree. right. exists p. split; [done|].
      exists r. by rewrite Hr, <- app_assoc. }
    rewrite nodeAt_app, Hn in Hc. simpl in Hc.
    destruct (children n !! k) as [c'|] eqn:Hk; [|done].
    by eapply isDir_true_of_child.
Qed.

(** X3: nothing is made up in the output.  An entry found in the output of
    [renderTree] under a chain of labels stands for the node at that chain:
    the chain is a prefix of one of the split paths, the label is the last
    name of the chain, and the entry is written as a file (no slash, nothing
    below) exactly when the chain is itself one of the split paths. *)
Theorem rendered_entries_are_paths (paths chain : list string) e :
  entryAt (layoutTree paths) chain = Some e →
  (∃ p, p ∈ paths ∧ chain `prefix_of` splitPath p)
  ∧ last chain = Some (label e)
  ∧ (slash e = false ↔ ∃ p, p ∈ paths ∧ splitPath p = chain)
  ∧ (slash e = false → below e = []).
Proof.
  intros He.
  assert (chain ≠ []) as Hne by (by destruct chain).
  pose proof (named_buildTree paths) as Hnamed.
  destruct (entryAt_node (buildTree paths) chain e Hnamed He) as (n & Hn & ->).
  split_and!.
  - destruct (proj1 (hasNode_buildTree paths chain)) as [?|?]; [by eexists|done..].
  - rewrite label_layoutNode. by eapply nodeAt_name.
  - rewrite slash_layoutNode, <- fileAt_buildTree by done. split.
    + intros Hd. exists n. split; [done|].
      destruct (isFile n) eqn:Hf; [done|].
      by rewrite (buildTree_leaf_is_file paths chain n) in Hd.
    + intros (n' & Hn' & Hf). apply isDir_false_of_file. congruence.
  - rewrite slash_layoutNode, below_layoutNode. by intros ->.
Qed.

(** X4: nothing is left out.  A path of the list that is not below another
    path of the list has its line in the output, as a file under the chain
    of its names, and every directory on the way to it has its line, with a
    slash. *)
Theorem every_path_is_rendered (paths : list string) p :
  p ∈ paths →
  (∀ p' r, p' ∈ paths → r ≠ [] → splitPath p' ++ r ≠ splitPath p) →
  (∃ l, last (splitPath p) = Some l
        ∧ entryAt (layoutTree paths) (splitPath p) = Some (Entry l false []))
  ∧ ∀ d r, d ≠ [] → r ≠ [] → d ++ r = splitPath p →
      ∃ e, entryAt (layoutTree paths) d = Some e
           ∧ slash e = true ∧ last d = Some (label e).
Proof.
  intros Hp Hfree.
  pose proof (named_buildTree paths) as Hnamed.
  assert (∀ r r' c, r ≠ [] → r' ≠ [] → r ++ r' `prefix_of` splitPath p →
            nodeAt (buildTree paths) r = Some c → isFile c = false) as Hanc.
  { intros r r' c Hr Hr' [r'' Hpre] Hc.
    destruct (isFile c) eqn:Hfc; [|done]. exfalso.
    destruct (proj1 (fileAt_buildTree paths r Hr)) as (p' & Hp' & Hsplit).
    { by exists c. }
    apply (Hfree p' (r' ++ r'')); [done| |].
    - by destruct r'.
    - by rewrite Hsplit, Hpre, <- app_assoc. }
  split.
  - assert (splitPath p ≠ []) as Hne by apply Split_not_nil.
    destruct (proj2 (fileAt_buildTree paths (splitPath p) Hne)) as (n & Hn & Hf).
    { by exists p. }
    exists (name n). split; [by eapply nodeAt_name|].
    assert (layoutNode n = Entry (name n) false []) as <-.
    { by rewrite layoutNode_unfold, (isDir_false_of_file n Hf). }
    apply (entryAt_reached (buildTree paths)); [done..|].
    intros r r' c Hr Hr' Happ. apply (Hanc r r'); [done..|]. by rewrite Happ.
  - intros d r Hd Hr Hsplit.
    assert (hasNode (buildTree paths) d) as [c Hc].
    { apply hasNode_buildTree. right. exists p. split; [done|].
      exists r. by rewrite Hsplit. }
    assert (isFile c = false) as Hfc.
    { apply (Hanc d r c); [done..| |done]. by rewrite Hsplit. }
    exists (layoutNode c). split_and!.
    + apply (entryAt_reached (buildTree paths)); [done..|].
      intros r1 r2 c' Hr1 Hr2 Happ. apply (Hanc r1 r2); [done..|].
      exists r. by rewrite Happ, Hsplit.
    + rewrite slash_layoutNode. by apply (buildTree_leaf_is_file paths d c).
    + rewrite label_layoutNode. by eapply nodeAt_name.
Qed.

(** X5: [sortedKeys] returns every key of the map once, whatever the flag;
    the order in which the pairs of the map come does not show in the
    result; and without the directories-first flag the whole list ascends. *)
Theorem sortedKeys_keys (m : gmap string tnode) (dirsFirst : bool) :
  sortedKeys m dirsFirst ≡ₚ (map_to_list m).*1
  ∧ NoDup (sortedKeys m dirsFirst)
  ∧ (∀ kvs, kvs ≡ₚ map_to_list m →
            sortedKeysOf kvs dirsFirst = sortedKeys m dirsFirst)
  ∧ (dirsFirst = false → StronglySorted String.le (sortedKeys m dirsFirst)).
Proof.
  assert (sortedKeys m dirsFirst ≡ₚ (map_to_list m).*1) as Hperm.
  { unfold sortedKeys. destruct dirsFirst.
    - rewrite sortedKeysOf_dirsFirst, !sort_Strings_perm, <- fmap_app.
      apply fmap_Permutation.
      assert (filter (λ kv : string * tnode, isDir kv.2 = false) (map_to_list m)
              = filter (λ kv, ¬ isDir kv.2 = true) (map_to_list m)) as ->.
      { apply list_filter_iff. intros kv.
        destruct (isDir kv.2); split; intros; congruence. }
      apply filter_app_complement.
    - unfold sortedKeysOf. simpl. rewrite keys_loop. simpl.
      apply sort_Strings_perm. }
  split_and!.
  - done.
  - rewrite Hperm. apply NoDup_fst_map_to_list.
  - intros kvs Hkvs. by apply sortedKeysOf_order.
  - intros ->. apply sort_Strings_sorted.
Qed.

End tree_facts.

(** ** The text of a document *)

Lemma append_assoc (s1 s2 s3 : string) : (s1 +:+ s2) +:+ s3 = s1 +:+ s2 +:+ s3.
Proof.
  induction s1 as [|c s1 IH]; [done|].
  change (String c ((s1 +:+ s2) +:+ s3) = String c (s1 +:+ s2 +:+ s3)).
  by rewrite IH.
Qed.

Lemma append_String c s1 s2 : String c s1 +:+ s2 = String c (s1 +:+ s2).
Proof. done. Qed.

Lemma lacksFinalNewline_cons c c' rest :
  lacksFinalNewline (String c (String c' rest))
  = lacksFinalNewline (String c' rest).
Proof. done. Qed.

(** [lacksFinalNewline] fails exactly on the empty text and on the texts
    that end in a line feed. *)
Lemma lacksFinalNewline_false data :
  lacksFinalNewline data = false ↔ data = "" ∨ ∃ t, data = t +:+ nl.
Proof.
  induction data as [|c data IH]; [by split; [left|]|].
  destruct data as [|c' rest].
  - simpl. destruct (Ascii.eqb_spec c "010") as [->|Hne]; simpl.
    + split; [|done]. intros _. right. by exists "".
    + split; [done|]. intros [?|(t & Ht)]; [done|].
      destruct t as [|a [|b t]]; [| |done].
      * injection Ht as ->. done.
      * discriminate.
  - rewrite lacksFinalNewline_cons, IH. split.
    + intros [?|(t & Ht)]; [done|]. right. exists (String c t).
      by rewrite append_String, <- Ht.
    + intros [?|(t & Ht)]; [done|]. right. destruct t as [|a t].
      * discriminate.
      * rewrite append_String in Ht. injection Ht as -> Ht. by exists t.
Qed.

(** X6: between the fences of a "file" block the content always ends in a
    line feed, unless the file is empty: a line feed is added when the
    content lacks one, and none is added when it has one. *)
Theorem content_ends_in_line_feed (data : string) :
  (data = "" → closedContent data = "")
  ∧ (data ≠ "" → ∃ t, closedContent data = t +:+ nl)
  ∧ ((∃ t, data = t +:+ nl) → closedContent data = data).
Proof.
  unfold closedContent. split_and!.
  - by intros ->.
  - intros Hne. destruct (lacksFinalNewline data) eqn:E.
    + by exists data.
    + apply lacksFinalNewline_false in E as [?|(t & ->)]; [done|].
      exists t. by rewrite append_empty_r.
  - intros Hnl. rewrite (proj2 (lacksFinalNewline_false data)) by by right.
    apply append_empty_r.
Qed.

Section document_text.
Context `{GoLib} {FS : Type} `{FileSystem FS}.

Lemma filesLoop_step (fs : FS) projectRoot rel rest b :
  filesLoop fs projectRoot (rel :: rest) b
  = match ReadFile fs (Join projectRoot rel) with
    | Err err => Err (Wrapped ("read " +:+ rel +:+ ": ") err)
    | Ok data => filesLoop fs projectRoot rest (b +:+ fileBlock rel data)
    end.
Proof.
  simpl. destruct (ReadFile fs _) as [data|]; [|done]. f_equal.
  unfold fileBlock, closedContent.
  destruct (decide (detectLang rel ≠ "")); destruct (lacksFinalNewline data);
    by rewrite ?append_assoc, ?append_empty_r.
Qed.

(** X7: a "file" source whose files can all be read writes one block per
    file, in the order of the list, after what the builder holds; the first
    file that cannot be read ends the loop with a "read" error that names
    it, whatever files follow. *)
Theorem file_blocks_in_order (fs : FS) projectRoot files contents :
  Forall2 (λ rel data, ReadFile fs (Join projectRoot rel) = Ok data)
          files contents →
  (∀ b, filesLoop fs projectRoot files b
        = Ok (b +:+ concatAll (zip_with fileBlock files contents)))
  ∧ (∀ b rel after err,
       ReadFile fs (Join projectRoot rel) = Err err →
       filesLoop fs projectRoot (files ++ rel :: after) b
       = Err (Wrapped ("read " +:+ rel +:+ ": ") err)).
Proof.
  intros Hread. induction Hread as [|rel data files contents Hrel _ [IH1 IH2]].
  - split.
    + intros b. simpl. by rewrite append_empty_r.
    + intros b rel after err Herr. simpl app. by rewrite filesLoop_step, Herr.
  - split.
    + intros b. rewrite filesLoop_step, Hrel, IH1. simpl.
      by rewrite append_assoc.
    + intros b rel' after err Herr. simpl app.
      rewrite filesLoop_step, Hrel. by apply IH2.
Qed.

Lemma filesLoop_append (fs : FS) projectRoot files b :
  filesLoop fs projectRoot files b
  = match filesLoop fs projectRoot files "" with
    | Ok text => Ok (b +:+ text)
    | Err e => Err e
    end.
Proof.
  revert b. induction files as [|rel files IH]; intros b.
  - simpl. by rewrite append_empty_r.
  - rewrite !filesLoop_step. destruct (ReadFile fs _) as [data|]; [|done].
    rewrite IH, (IH ("" +:+ _)).
    destruct (filesLoop fs projectRoot files ""); [|done].
    by rewrite append_assoc.
Qed.

(** What the sources write does not depend on what the builder holds. *)
Lemma sourcesLoop_append (fs : FS) projectRoot srcs b :
  sourcesLoop fs projectRoot srcs b
  = match sourcesLoop fs projectRoot srcs "" with
    | Ok text => Ok (b +:+ text)
    | Err e => Err e
    end.
Proof.
  revert b. induction srcs as [|src srcs IH]; intros b.
  - simpl. by rewrite append_empty_r.
  - simpl. destruct (collectFiles _ _ _ _) as [files|]; [|done].
    assert (∀ x, sourcesLoop fs projectRoot srcs (b +:+ x)
                 = match sourcesLoop fs projectRoot srcs ("" +:+ x) with
                   | Ok text => Ok (b +:+ text)
                   | Err e => Err e
                   end) as Hx.
    { intros x. rewrite IH, (IH ("" +:+ x)).
      destruct (sourcesLoop fs projectRoot srcs ""); [|done].
      by rewrite append_assoc. }
    destruct (decide (ToLower (Type_ src) = "tree")).
    { destruct (length files =? 0); apply Hx. }
    destruct (decide (ToLower (Type_ src) = "file")); [|done].
    destruct (length files =? 0); [apply Hx|].
    rewrite filesLoop_append.
    destruct (filesLoop fs projectRoot files "") as [text|]; [|done].
    apply Hx.
Qed.

Lemma sourcesLoop_texts (fs : FS) projectRoot srcs b b' :
  sourcesLoop fs projectRoot srcs b = Ok b'
  ↔ ∃ texts,
      Forall2 (λ src text, sourcesLoop fs projectRoot [src] "" = Ok text)
              srcs texts
      ∧ b' = b +:+ concatAll texts.
Proof.
  revert b b'. induction srcs as [|src srcs IH]; intros b b'.
  - simpl. split.
    + intros [= <-]. exists []. split; [constructor|].
      simpl. by rewrite append_empty_r.
    + intros (texts & Hall & ->). apply Forall2_nil_inv_l in Hall as ->.
      simpl. by rewrite append_empty_r.
  - change (src :: srcs) with ([src] ++ srcs).
    rewrite sourcesLoop_app, sourcesLoop_append.
    destruct (sourcesLoop fs projectRoot [src] "") as [text|e] eqn:Hsrc.
    + rewrite IH. split.
      * intros (texts & Hall & ->). exists (text :: texts).
        split; [by constructor|]. simpl. by rewrite append_assoc.
      * intros (texts & Hall & ->).
        apply Forall2_cons_inv_l in Hall as (t & texts' & Ht & Hall & ->).
        rewrite Hsrc in Ht. injection Ht as <-. exists texts'.
        split; [done|]. simpl. by rewrite append_assoc.
    + split; [done|]. intros (texts & Hall & _).
      apply Forall2_cons_inv_l in Hall as (t & texts' & Ht & _).
      by rewrite Hsrc in Ht.
Qed.

(** X8: a document is rendered exactly when each of its sources is, and
    its text is then the heading followed by the texts of the sources, each
    as the source is rendered on its own, in the order of the
    configuration. *)
Theorem document_is_heading_and_sources (fs : FS) projectRoot doc text :
  renderDocument fs projectRoot doc = Ok text
  ↔ ∃ texts,
      Forall2 (λ src t, sourcesLoop fs projectRoot [src] "" = Ok t)
              (Sources doc) texts
      ∧ text = heading doc +:+ concatAll texts.
Proof. apply sourcesLoop_texts. Qed.

End document_text.

(** ** More on the collector *)

Section collector_facts.
Context `{GoLib} {FS : Type} `{FileSystem FS}.

Lemma expandSourceStarts_expand_spec (fs : FS) rootAbs dirs :
  expandSourceStarts fs rootAbs dirs = expand_spec fs rootAbs dirs.
Proof.
  unfold expandSourceStarts. rewrite expandLoop_spec.
  by destruct (expand_spec fs rootAbs dirs).
Qed.

Lemma WalkDir_ok_of_clean rootAbs patterns visits seen :
  Forall (λ v, v_err v = None
               ∧ (v_isDir v = false →
                  included patterns (v_name v) = true →
                  is_ok (Rel rootAbs (v_path v)) = true)) visits →
  ∃ seen', WalkDir visits (walkFn rootAbs patterns) seen = Ok seen'.
Proof.
  intros Hclean. revert seen.
  induction Hclean as [|v vs [Herr Hrel] _ IH]; intros seen; simpl.
  - by eexists.
  - unfold walkFn at 1. rewrite Herr. destruct (v_isDir v); [apply IH|].
    destruct (included patterns (v_name v)); [|apply IH].
    specialize (Hrel eq_refl eq_refl).
    destruct (Rel rootAbs (v_path v)); [apply IH|done].
Qed.

Lemma collectLoop_ok_of_clean (fs : FS) rootAbs patterns starts seen :
  Forall (start_without_error fs rootAbs patterns) starts →
  ∃ seen', collectLoop fs rootAbs patterns starts seen = Ok seen'.
Proof.
  intros Hclean. revert seen.
  induction Hclean as [|start rest Hstart _ IH]; intros seen; simpl.
  - by eexists.
  - unfold start_without_error in Hstart.
    destruct (Stat fs start) as [[|]|err].
    + destruct (WalkDir_ok_of_clean rootAbs patterns _ seen Hstart) as [s1 ->].
      apply IH.
    + destruct (included patterns (Base start)); [|apply IH].
      specialize (Hstart eq_refl).
      destruct (Rel rootAbs start); [apply IH|done].
    + rewrite Hstart. apply IH.
Qed.

Lemma collectFiles_ok_iff (fs : FS) root dirs patternCSV :
  is_ok (collectFiles fs root dirs patternCSV) = true
  ↔ ∃ rootAbs starts,
      Abs fs root = Ok rootAbs
      ∧ expandSourceStarts fs rootAbs dirs = Ok starts
      ∧ Forall (start_without_error fs rootAbs (splitPatterns patternCSV)) starts.
Proof.
  unfold collectFiles. split.
  - destruct (Abs fs root) as [rootAbs|] eqn:Habs; [|done].
    destruct (expandSourceStarts fs rootAbs dirs) as [starts|] eqn:Hexp; [|done].
    destruct (collectLoop _ _ _ _ _) as [seen|] eqn:Hloop; [|done].
    intros _. exists rootAbs, starts. split_and!; [done..|].
    by eapply collectLoop_ok_clean.
  - intros (rootAbs & starts & -> & -> & Hclean).
    by destruct (collectLoop_ok_of_clean fs rootAbs _ starts ∅ Hclean) as [? ->].
Qed.

(** X9: [collectFiles] returns a list exactly when the root can be made
    absolute, the expansion of the source paths succeeds and at no start
    point an error other than not-found is met: in that case it cannot
    fail. *)
Theorem collectFiles_succeeds_iff (fs : FS) root dirs patternCSV :
  is_ok (collectFiles fs root dirs patternCSV) = true
  ↔ ∃ rootAbs starts,
      Abs fs root = Ok rootAbs
      ∧ expandSourceStarts fs rootAbs dirs = Ok starts
      ∧ Forall (start_without_error fs rootAbs (splitPatterns patternCSV)) starts.
Proof. apply collectFiles_ok_iff. Qed.

Lemma collectLoop_missing (fs : FS) rootAbs patterns starts seen :
  Forall (missing fs) starts →
  collectLoop fs rootAbs patterns starts seen = Ok seen.
Proof.
  induction 1 as [|start rest (err & Hstat & Hne) _ IH]; simpl; [done|].
  by rewrite Hstat, Hne.
Qed.

(** X10: when none of the start points of a source is there, the collection
    gives the empty list and no error, and the source writes its notice
    (the fenced one for a "tree" source, the italic one for a "file"
    source) and rendering goes on with the next source. *)
Theorem missing_paths_give_notice (fs : FS) projectRoot src rootAbs starts :
  Abs fs projectRoot = Ok rootAbs →
  expandSourceStarts fs rootAbs (SourcePaths src) = Ok starts →
  Forall (missing fs) starts →
  collectFiles fs projectRoot (SourcePaths src) (FilePattern src) = Ok []
  ∧ (ToLower (Type_ src) = "tree" →
     ∀ rest b, sourcesLoop fs projectRoot (src :: rest) b
               = sourcesLoop fs projectRoot rest (b +:+ treeNotice src))
  ∧ (ToLower (Type_ src) = "file" →
     ∀ rest b, sourcesLoop fs projectRoot (src :: rest) b
               = sourcesLoop fs projectRoot rest (b +:+ fileNotice src)).
Proof.
  intros Habs Hexp Hmiss.
  assert (collectFiles fs projectRoot (SourcePaths src) (FilePattern src) = Ok [])
    as Hnone.
  { unfold collectFiles. rewrite Habs, Hexp, collectLoop_missing by done.
    by rewrite elements_empty. }
  split_and!; [done|..].
  - intros Hty rest b. simpl. rewrite Hnone, Hty. simpl.
    by destruct (decide ("tree" = "tree")).
  - intros Hty rest b. simpl. rewrite Hnone, Hty. simpl.
    destruct (decide ("file" = "tree")); [done|].
    by destruct (decide ("file" = "file")).
Qed.

Lemma expand_spec_app (fs : FS) rootAbs dirs1 dirs2 :
  expand_spec fs rootAbs (dirs1 ++ dirs2)
  = match expand_spec fs rootAbs dirs1 with
    | Ok starts1 =>
        match expand_spec fs rootAbs dirs2 with
        | Ok starts2 => Ok (starts1 ++ starts2)
        | Err e => Err e
        end
    | Err e => Err e
    end.
Proof.
  induction dirs1 as [|d dirs1 IH]; simpl.
  - by destruct (expand_spec fs rootAbs dirs2).
  - destruct (entry_starts fs rootAbs d) as [s|]; [|done]. rewrite IH.
    destruct (expand_spec fs rootAbs dirs1); [|done].
    destruct (expand_spec fs rootAbs dirs2); [|done].
    by rewrite app_assoc.
Qed.

Lemma collectLoop_app (fs : FS) rootAbs patterns starts1 starts2 seen :
  collectLoop fs rootAbs patterns (starts1 ++ starts2) seen
  = match collectLoop fs rootAbs patterns starts1 seen with
    | Ok seen1 => collectLoop fs rootAbs patterns starts2 seen1
    | Err e => Err e
    end.
Proof.
  revert seen. induction starts1 as [|start rest IH]; intros seen; simpl; [done|].
  destruct (Stat fs start) as [[|]|err].
  - destruct (WalkDir _ _ seen); [apply IH|done].
  - destruct (included _ _); [|apply IH]. destruct (Rel _ _); [apply IH|done].
  - destruct (is_not_exist err); [apply IH|done].
Qed.

(** The paths of the list [collectFiles] returns, from the start points. *)
Lemma collectFiles_elem (fs : FS) root dirs patternCSV out rootAbs starts p :
  collectFiles fs root dirs patternCSV = Ok out →
  Abs fs root = Ok rootAbs →
  expandSourceStarts fs rootAbs dirs = Ok starts →
  p ∈ out ↔ ∃ start, start ∈ starts
              ∧ start_yields fs rootAbs (splitPatterns patternCSV) start p.
Proof.
  unfold collectFiles. intros Hc Habs Hexp. rewrite Habs, Hexp in Hc.
  destruct (collectLoop _ _ _ _ _) as [seen|] eqn:Hloop; [|done].
  injection Hc as <-. rewrite sort_Strings_elem, elem_of_elements.
  rewrite (collectLoop_elem _ _ _ _ _ _ _ Hloop).
  split; [|by right]. intros [Hp|?]; [|done]. by apply not_elem_of_empty in Hp.
Qed.

(** X11: the collection over two lists of source paths put together
    succeeds only if it succeeds over each, and its list then holds exactly
    the paths of the one list or the other. *)
Theorem collectFiles_of_appended_paths (fs : FS) root dirs1 dirs2 patternCSV out :
  collectFiles fs root (dirs1 ++ dirs2) patternCSV = Ok out →
  ∃ out1 out2,
    collectFiles fs root dirs1 patternCSV = Ok out1
    ∧ collectFiles fs root dirs2 patternCSV = Ok out2
    ∧ ∀ p, p ∈ out ↔ p ∈ out1 ∨ p ∈ out2.
Proof.
  intros Hc.
  destruct (proj1 (collectFiles_ok_iff fs root (dirs1 ++ dirs2) patternCSV))
    as (rootAbs & starts & Habs & Hexp & Hclean); [by rewrite Hc|].
  pose proof Hexp as Hexp'.
  rewrite expandSourceStarts_expand_spec, expand_spec_app in Hexp'.
  destruct (expand_spec fs rootAbs dirs1) as [starts1|] eqn:H1; [|done].
  destruct (expand_spec fs rootAbs dirs2) as [starts2|] eqn:H2; [|done].
  injection Hexp' as <-. apply Forall_app in Hclean as [Hclean1 Hclean2].
  rewrite <- expandSourceStarts_expand_spec in H1, H2.
  destruct (collectFiles fs root dirs1 patternCSV) as [out1|] eqn:Hout1.
  2:{ exfalso. assert (is_ok (collectFiles fs root dirs1 patternCSV) = true) as Hok.
      { apply collectFiles_ok_iff. by exists rootAbs, starts1. }
      by rewrite Hout1 in Hok. }
  destruct (collectFiles fs root dirs2 patternCSV) as [out2|] eqn:Hout2.
  2:{ exfalso. assert (is_ok (collectFiles fs root dirs2 patternCSV) = true) as Hok.
      { apply collectFiles_ok_iff. by exists rootAbs, starts2. }
      by rewrite Hout2 in Hok. }
  exists out1, out2. split_and!; [done..|]. intros p.
  rewrite (collectFiles_elem _ _ _ _ _ _ _ p Hc Habs Hexp).
  rewrite (collectFiles_elem _ _ _ _ _ _ _ p Hout1 Habs H1).
  rewrite (collectFiles_elem _ _ _ _ _ _ _ p Hout2 Habs H2).
  split.
  - intros (start & [?|?]%elem_of_app & ?); [left|right]; by exists start.
  - intros [(start & ? & ?)|(start & ? & ?)]; exists start;
      (split; [apply elem_of_app; by auto|done]).
Qed.

End collector_facts.

Section collector_order.
Context `{GoLib} {FS : Type} `{FileSystem FS}.

Lemma expand_spec_perm (fs : FS) rootAbs dirs dirs' starts :
  dirs ≡ₚ dirs' →
  expand_spec fs rootAbs dirs = Ok starts →
  ∃ starts', expand_spec fs rootAbs dirs' = Ok starts' ∧ starts ≡ₚ starts'.
Proof.
  intros Hp. revert starts.
  induction Hp as [|d l l' _ IH|d1 d2 l|l1 l2 l3 _ IH1 _ IH2]; intros starts; simpl.
  - intros [= <-]. by exists [].
  - destruct (entry_starts fs rootAbs d) as [s|]; [|done].
    destruct (expand_spec fs rootAbs l) as [r|]; [|done]. intros [= <-].
    destruct (IH r eq_refl) as (r' & -> & Hr). exists (s ++ r').
    split; [done|]. by rewrite Hr.
  - destruct (entry_starts fs rootAbs d2) as [s2|]; [|done].
    destruct (entry_starts fs rootAbs d1) as [s1|]; [|done].
    destruct (expand_spec fs rootAbs l) as [r|]; [|done]. intros [= <-].
    exists (s1 ++ s2 ++ r). split; [done|].
    rewrite !app_assoc. f_equiv. apply Permutation_app_comm.
  - intros H1. destruct (IH1 _ H1) as (s2 & H2 & Hp12).
    destruct (IH2 _ H2) as (s3 & H3 & Hp23). exists s3.
    split; [done|]. by rewrite Hp12.
Qed.

Lemma collectFiles_sorted_nodup (fs : FS) root dirs patternCSV out :
  collectFiles fs root dirs patternCSV = Ok out →
  StronglySorted String.le out.
Proof.
  unfold collectFiles. intros Hc.
  destruct (Abs fs root) as [rootAbs|]; [|done].
  destruct (expandSourceStarts fs rootAbs dirs) as [starts|]; [|done].
  destruct (collectLoop _ _ _ _ _) as [seen|]; [|done].
  injection Hc as <-. apply sort_Strings_sorted.
Qed.

Lemma collectFiles_nodup (fs : FS) root dirs patternCSV out :
  collectFiles fs root dirs patternCSV = Ok out → NoDup out.
Proof.
  unfold collectFiles. intros Hc.
  destruct (Abs fs root) as [rootAbs|]; [|done].
  destruct (expandSourceStarts fs rootAbs dirs) as [starts|]; [|done].
  destruct (collectLoop _ _ _ _ _) as [seen|]; [|done].
  injection Hc as <-. rewrite sort_Strings_perm. apply NoDup_elements.
Qed.

(** X12: the order of the source paths of a source does not show: if the
    collection succeeds for a list of source paths, it succeeds for every
    permutation of it and returns the same list of files. *)
Theorem collectFiles_order_of_source_paths (fs : FS) root dirs dirs'
    patternCSV out :
  dirs ≡ₚ dirs' →
  collectFiles fs root dirs patternCSV = Ok out →
  collectFiles fs root dirs' patternCSV = Ok out.
Proof.
  intros Hp Hc.
  destruct (proj1 (collectFiles_ok_iff fs root dirs patternCSV))
    as (rootAbs & starts & Habs & Hexp & Hclean); [by rewrite Hc|].
  pose proof Hexp as Hexp1. rewrite expandSourceStarts_expand_spec in Hexp1.
  destruct (expand_spec_perm fs rootAbs dirs dirs' starts Hp Hexp1)
    as (starts' & Hexp' & Hstarts).
  rewrite <- expandSourceStarts_expand_spec in Hexp'.
  destruct (collectFiles fs root dirs' patternCSV) as [out'|] eqn:Hc'.
  2:{ exfalso.
      assert (is_ok (collectFiles fs root dirs' patternCSV) = true) as Hok.
      { apply collectFiles_ok_iff. exists rootAbs, starts'.
        split_and!; [done..|]. by rewrite <- Hstarts. }
      by rewrite Hc' in Hok. }
  f_equal. apply (StronglySorted_unique String.le).
  - by eapply collectFiles_sorted_nodup.
  - by eapply collectFiles_sorted_nodup.
  - apply NoDup_Permutation; [by eapply collectFiles_nodup..|]. intros p.
    rewrite (collectFiles_elem _ _ _ _ _ _ _ p Hc' Habs Hexp').
    rewrite (collectFiles_elem _ _ _ _ _ _ _ p Hc Habs Hexp).
    split; intros (start & Hstart & ?); exists start; (split; [|done]).
    + by rewrite Hstarts.
    + by rewrite <- Hstarts.
Qed.

(** X13: neither the order nor the repetition of patterns shows in the
    test for inclusion: two pattern lists with the same members include the
    same names. *)
Theorem included_set_of_patterns (patterns1 patterns2 : list string) name :
  (∀ p, p ∈ patterns1 ↔ p ∈ patterns2) →
  included patterns1 name = included patterns2 name.
Proof.
  intros Hsame.
  assert (∀ ps1 ps2 : list string, (∀ p, p ∈ ps1 ↔ p ∈ ps2) →
            included ps1 name = true → included ps2 name = true) as Hdir.
  { intros ps1 ps2 Hs [->|(p & Hp & Hm)]%included_true; apply included_true.
    - left. destruct ps2 as [|q ps2]; [done|]. exfalso.
      apply (proj1 (elem_of_nil q)), Hs. left.
    - right. exists p. split; [by apply Hs|done]. }
  destruct (included patterns1 name) eqn:E1, (included patterns2 name) eqn:E2;
    try done.
  - by rewrite (Hdir _ _ Hsame E1) in E2.
  - assert (∀ p, p ∈ patterns2 ↔ p ∈ patterns1) as Hsame' by (intros p; by rewrite Hsame).
    by rewrite (Hdir _ _ Hsame' E2) in E1.
Qed.

End collector_order.

(** ** More on the orchestrator and the commands *)

Section orchestrator_facts.
Context `{GoLib} {FS : Type} `{FileSystem FS}.

Lemma generateLoop_written_prefix (fs : FS) projectRoot docs fs' ev r :
  generateLoop fs projectRoot docs = (fs', ev, r) →
  writtenPaths ev `prefix_of` OutputPath <$> docs.
Proof.
  revert fs ev. induction docs as [|doc docs IH]; intros fs ev; simpl.
  - intros [= <- <- <-]. done.
  - destruct (generateDocument fs projectRoot doc) as [[fs1 ev1] [err|]] eqn:E;
      apply generateDocument_writes in E.
    + intros [= <- <- <-]. destruct E as [->| ->]; [apply prefix_nil|].
      apply prefix_cons, prefix_nil.
    + destruct (generateLoop fs1 projectRoot docs) as [[fs2 ev2] r2] eqn:E2.
      intros [= <- <- <-]. unfold writtenPaths in *. rewrite omap_app, E.
      simpl. apply prefix_cons. by eapply IH.
Qed.

(** X14: whatever the outcome, [Generate] writes to the output paths of the
    configuration only, each at most once and in the order of the
    documents: the paths written are a prefix of the list of the output
    paths, and all of them when no error is returned. *)
Theorem Generate_writes_output_paths_in_order (c : Config) projectRoot (fs : FS)
    fs' ev r :
  Generate c projectRoot fs = (fs', ev, r) →
  writtenPaths ev `prefix_of` OutputPath <$> Documents c
  ∧ (r = None → writtenPaths ev = OutputPath <$> Documents c).
Proof.
  unfold Generate. intros Hg. split.
  - by eapply generateLoop_written_prefix.
  - intros ->. by eapply generateLoop_writes.
Qed.

Context `{Yaml}.

(** [runGenerate] reads the configuration and generates from the
    directory ["."]; of the configuration it uses the documents only, the
    [projectPath] has no part in the run. *)
Theorem runGenerate_ignores_projectPath (path : string) (fs : FS) :
  runGenerate path fs
  = match Load fs (configPath path) with
    | Err err => (fs, [], "", Some err)
    | Ok conf =>
        match Generate (mkConfig "" (Documents conf)) "." fs with
        | (fs', ev, Some err) => (fs', ev, "", Some err)
        | (fs', ev, None) => (fs', ev, "Generation completed" +:+ nl, None)
        end
    end.
Proof. unfold runGenerate. by destruct (Load fs (configPath path)). Qed.

Lemma Save_writes (fs : FS) path c fs' ev r :
  Save fs path c = (fs', ev, r) →
  writtenPaths ev = [] ∨ writtenPaths ev = [path].
Proof.
  unfold Save. destruct (Marshal c) as [data|]; [|by intros [= <- <- <-]; left].
  destruct (ensureDir fs (Dir path)) as [[fs1 ev1] [err|]] eqn:E;
    apply ensureDir_writes in E.
  - intros [= <- <- <-]. by left.
  - destruct (WriteFile fs1 path data) as [fs2 werr]. intros [= <- <- <-].
    right. unfold writtenPaths in *. by rewrite omap_app, E.
Qed.

(** X15: [runInit] does not overwrite.  When the stat of the configuration
    path succeeds it fails with "config already exists" and changes and
    prints nothing; in every run it writes no file but the configuration
    path, and it makes a change only after the stat has reported not-found;
    the empty path stands for [config.yaml]. *)
Theorem runInit_does_not_overwrite (path : string) (fs : FS) fs' ev out r :
  runInit path fs = (fs', ev, out, r) →
  (is_ok (Stat fs (configPath path)) = true →
   fs' = fs ∧ ev = [] ∧ out = ""
   ∧ r = Some (NewError ("config already exists: " +:+ configPath path)))
  ∧ (writtenPaths ev = [] ∨ writtenPaths ev = [configPath path])
  ∧ (ev ≠ [] →
     ∃ err, Stat fs (configPath path) = Err err ∧ is_not_exist err = true)
  ∧ (path = "" → configPath path = "config.yaml").
Proof.
  unfold runInit. intros Hrun.
  destruct (Stat fs (configPath path)) as [d|err] eqn:Hstat.
  - injection Hrun as <- <- <- <-. split_and!; [done|by left|done|].
    intros ->. done.
  - destruct (is_not_exist err) eqn:Hne; simpl in Hrun.
    + destruct (Save fs (configPath path) Default) as [[fs1 ev1] r1] eqn:Hsave.
      apply Save_writes in Hsave.
      assert (ev = ev1) as ->.
      { destruct r1; by injection Hrun as <- <- <- <-. }
      split_and!; [done|done| |by intros ->]. intros _. by exists err.
    + injection Hrun as <- <- <- <-. split_and!; [done|by left|done|].
      by intros ->.
Qed.

End orchestrator_facts.

(** ** Runs for the further properties *)

Lemma renderTree_set_of_paths_witness :
  (∀ p, p ∈ ["a/b"; "c"; "a/b"] ↔ p ∈ ["c"; "a/b"])
  ∧ renderTree ["a/b"; "c"; "a/b"] = renderTree ["c"; "a/b"].
Proof.
  assert (∀ p : string, p ∈ ["a/b"; "c"; "a/b"] ↔ p ∈ ["c"; "a/b"]) as Hsame.
  { intros p. rewrite !elem_of_cons. pose proof (elem_of_nil p). tauto. }
  refine (conj Hsame _).
  exact (renderTree_set_of_paths _ _ Hsame).
Defined.

Lemma rendered_entries_are_paths_witness :
  entryAt (layoutTree ["src/a.go"; "src/b/c.go"]) ["src"; "b"]
  = Some (Entry "b" true [Entry "c.go" false []])
  ∧ ((∃ p, p ∈ ["src/a.go"; "src/b/c.go"] ∧ ["src"; "b"] `prefix_of` splitPath p)
     ∧ last ["src"; "b"] = Some (label (Entry "b" true [Entry "c.go" false []]))
     ∧ (slash (Entry "b" true [Entry "c.go" false []]) = false
        ↔ ∃ p, p ∈ ["src/a.go"; "src/b/c.go"] ∧ splitPath p = ["src"; "b"])
     ∧ (slash (Entry "b" true [Entry "c.go" false []]) = false
        → below (Entry "b" true [Entry "c.go" false []]) = [])).
Proof.
  assert (entryAt (layoutTree ["src/a.go"; "src/b/c.go"]) ["src"; "b"]
          = Some (Entry "b" true [Entry "c.go" false []])) as He
    by (vm_compute; reflexivity).
  refine (conj He _).
  exact (rendered_entries_are_paths _ _ _ He).
Defined.

Lemma every_path_is_rendered_witness :
  "src/b/c.go" ∈ ["src/a.go"; "src/b/c.go"]
  ∧ (∀ p' r, p' ∈ ["src/a.go"; "src/b/c.go"] → r ≠ [] →
             splitPath p' ++ r ≠ splitPath "src/b/c.go")
  ∧ ((∃ l, last (splitPath "src/b/c.go") = Some l
           ∧ entryAt (layoutTree ["src/a.go"; "src/b/c.go"])
               (splitPath "src/b/c.go") = Some (Entry l false []))
     ∧ ∀ d r, d ≠ [] → r ≠ [] → d ++ r = splitPath "src/b/c.go" →
         ∃ e, entryAt (layoutTree ["src/a.go"; "src/b/c.go"]) d = Some e
              ∧ slash e = true ∧ last d = Some (label e)).
Proof.
  assert ("src/b/c.go" ∈ ["src/a.go"; "src/b/c.go"]) as H1 by (right; left).
  assert (∀ p' r, p' ∈ ["src/a.go"; "src/b/c.go"] → r ≠ [] →
            splitPath p' ++ r ≠ splitPath "src/b/c.go") as H2.
  { intros p' r Hp' Hr Heq.
    apply elem_of_cons in Hp' as [->|Hp'];
      [|apply elem_of_cons in Hp' as [->|Hp']; [|by apply elem_of_nil in Hp']].
    - vm_compute in Heq. congruence.
    - vm_compute in Heq. apply Hr. congruence. }
  refine (conj H1 (conj H2 _)).
  exact (every_path_is_rendered _ _ H1 H2).
Defined.

Lemma file_blocks_in_order_witness :
  Forall2 (λ rel data, ReadFile tables.project (Join "." rel) = Ok data)
          ["src/a.go"; "src/notes.md"] ["package a"; "notes" +:+ nl]
  ∧ ((∀ b, filesLoop tables.project "." ["src/a.go"; "src/notes.md"] b
           = Ok (b +:+ concatAll (zip_with fileBlock
                                    ["src/a.go"; "src/notes.md"]
                                    ["package a"; "notes" +:+ nl])))
     ∧ (∀ b rel after err,
          ReadFile tables.project (Join "." rel) = Err err →
          filesLoop tables.project "." (["src/a.go"; "src/notes.md"] ++ rel :: after) b
          = Err (Wrapped ("read " +:+ rel +:+ ": ") err))).
Proof.
  assert (Forall2 (λ rel data, ReadFile tables.project (Join "." rel) = Ok data)
            ["src/a.go"; "src/notes.md"] ["package a"; "notes" +:+ nl]) as Hread.
  { repeat constructor. }
  refine (conj Hread _).
  exact (file_blocks_in_order tables.project "." _ _ Hread).
Defined.

(** The blocks of the two files: the first lacks its line feed and gets
    one. *)
Example file_blocks_example :
  filesLoop tables.project "." ["src/a.go"; "src/notes.md"] ""
  = Ok ("### src/a.go" +:+ nl +:+ nl +:+ "```go" +:+ nl
        +:+ "package a" +:+ nl +:+ "```" +:+ nl +:+ nl
        +:+ "### src/notes.md" +:+ nl +:+ nl +:+ "```md" +:+ nl
        +:+ "notes" +:+ nl +:+ "```" +:+ nl +:+ nl).
Proof. vm_compute; reflexivity. Qed.

Lemma missing_paths_give_notice_witness :
  Abs tables.project "." = Ok "/proj"
  ∧ expandSourceStarts tables.project "/proj"
      (SourcePaths (mkSource "tree" ["migrations"; "templates"] [] "*.php"))
    = Ok ["/proj/migrations"; "/proj/templates"]
  ∧ Forall (missing tables.project) ["/proj/migrations"; "/proj/templates"]
  ∧ (collectFiles tables.project "."
       (SourcePaths (mkSource "tree" ["migrations"; "templates"] [] "*.php"))
       (FilePattern (mkSource "tree" ["migrations"; "templates"] [] "*.php"))
     = Ok []
     ∧ (ToLower (Type_ (mkSource "tree" ["migrations"; "templates"] [] "*.php"))
        = "tree" →
        ∀ rest b,
          sourcesLoop tables.project "."
            (mkSource "tree" ["migrations"; "templates"] [] "*.php" :: rest) b
          = sourcesLoop tables.project "." rest
              (b +:+ treeNotice
                       (mkSource "tree" ["migrations"; "templates"] [] "*.php")))
     ∧ (ToLower (Type_ (mkSource "tree" ["migrations"; "templates"] [] "*.php"))
        = "file" →
        ∀ rest b,
          sourcesLoop tables.project "."
            (mkSource "tree" ["migrations"; "templates"] [] "*.php" :: rest) b
          = sourcesLoop tables.project "." rest
              (b +:+ fileNotice
                       (mkSource "tree" ["migrations"; "templates"] [] "*.php")))).
Proof.
  assert (Abs tables.project "." = Ok "/proj") as H1 by (vm_compute; reflexivity).
  assert (expandSourceStarts tables.project "/proj"
            (SourcePaths (mkSource "tree" ["migrations"; "templates"] [] "*.php"))
          = Ok ["/proj/migrations"; "/proj/templates"]) as H2
    by (vm_compute; reflexivity).
  assert (Forall (missing tables.project)
            ["/proj/migrations"; "/proj/templates"]) as H3.
  { repeat constructor; eexists; split; vm_compute; reflexivity. }
  refine (conj H1 (conj H2 (conj H3 _))).
  exact (missing_paths_give_notice tables.project "."
           (mkSource "tree" ["migrations"; "templates"] [] "*.php") _ _ H1 H2 H3).
Defined.

Lemma collectFiles_of_appended_paths_witness :
  collectFiles tables.project "." (["src/b"] ++ ["src/a.go"]) "*.go"
  = Ok ["src/a.go"; "src/b/c.go"]
  ∧ ∃ out1 out2,
      collectFiles tables.project "." ["src/b"] "*.go" = Ok out1
      ∧ collectFiles tables.project "." ["src/a.go"] "*.go" = Ok out2
      ∧ ∀ p, p ∈ ["src/a.go"; "src/b/c.go"] ↔ p ∈ out1 ∨ p ∈ out2.
Proof.
  assert (collectFiles tables.project "." (["src/b"] ++ ["src/a.go"]) "*.go"
          = Ok ["src/a.go"; "src/b/c.go"]) as Hc by (vm_compute; reflexivity).
  refine (conj Hc _).
  exact (collectFiles_of_appended_paths tables.project "." _ _ _ _ Hc).
Defined.

Lemma collectFiles_order_of_source_paths_witness :
  ["src/a.go"; "src/b"; "missing"] ≡ₚ ["missing"; "src/a.go"; "src/b"]
  ∧ collectFiles tables.project "." ["src/a.go"; "src/b"; "missing"] "*.go"
    = Ok ["src/a.go"; "src/b/c.go"]
  ∧ collectFiles tables.project "." ["missing"; "src/a.go"; "src/b"] "*.go"
    = Ok ["src/a.go"; "src/b/c.go"].
Proof.
  assert (["src/a.go"; "src/b"; "missing"] ≡ₚ ["missing"; "src/a.go"; "src/b"])
    as Hp.
  { symmetry. apply (Permutation_cons_append ["src/a.go"; "src/b"] "missing"). }
  assert (collectFiles tables.project "." ["src/a.go"; "src/b"; "missing"] "*.go"
          = Ok ["src/a.go"; "src/b/c.go"]) as Hc by (vm_compute; reflexivity).
  refine (conj Hp (conj Hc _)).
  exact (collectFiles_order_of_source_paths tables.project "." _ _ _ _ Hp Hc).
Defined.

Lemma included_set_of_patterns_witness :
  (∀ p, p ∈ ["*.md"; "*.go"; "*.md"] ↔ p ∈ ["*.go"; "*.md"])
  ∧ included ["*.md"; "*.go"; "*.md"] "a.go" = included ["*.go"; "*.md"] "a.go".
Proof.
  assert (∀ p : string, p ∈ ["*.md"; "*.go"; "*.md"] ↔ p ∈ ["*.go"; "*.md"])
    as Hsame.
  { intros p. rewrite !elem_of_cons. pose proof (elem_of_nil p). tauto. }
  refine (conj Hsame _).
  exact (included_set_of_patterns _ _ "a.go" Hsame).
Defined.

Lemma Generate_writes_output_paths_in_order_witness :
  Generate (mkConfig "." [tables.docOne; tables.readOnlyDoc; tables.docThree])
    "." tables.project
  = (tables.afterOne,
     tables.logOne
     ++ [EvMkdirAll "/ro"; EvWriteFile "/ro/out.md"
           ("### src/notes.md" +:+ nl +:+ nl +:+ "```md" +:+ nl
            +:+ "notes" +:+ nl +:+ "```" +:+ nl +:+ nl)],
     Some (Wrapped "write output /ro/out.md: " (tables.EACCES "open" "/ro/out.md")))
  ∧ (writtenPaths
       (tables.logOne
        ++ [EvMkdirAll "/ro"; EvWriteFile "/ro/out.md"
              ("### src/notes.md" +:+ nl +:+ nl +:+ "```md" +:+ nl
               +:+ "notes" +:+ nl +:+ "```" +:+ nl +:+ nl)])
     `prefix_of`
       OutputPath
       <$> Documents
             (mkConfig "." [tables.docOne; tables.readOnlyDoc; tables.docThree])
     ∧ (Some (Wrapped "write output /ro/out.md: "
                (tables.EACCES "open" "/ro/out.md")) = None →
        writtenPaths
          (tables.logOne
           ++ [EvMkdirAll "/ro"; EvWriteFile "/ro/out.md"
                 ("### src/notes.md" +:+ nl +:+ nl +:+ "```md" +:+ nl
                  +:+ "notes" +:+ nl +:+ "```" +:+ nl +:+ nl)])
        = OutputPath
          <$> Documents
                (mkConfig "." [tables.docOne; tables.readOnlyDoc; tables.docThree]))).
Proof.
  assert (Generate
            (mkConfig "." [tables.docOne; tables.readOnlyDoc; tables.docThree])
            "." tables.project
          = (tables.afterOne,
             tables.logOne
             ++ [EvMkdirAll "/ro"; EvWriteFile "/ro/out.md"
                   ("### src/notes.md" +:+ nl +:+ nl +:+ "```md" +:+ nl
                    +:+ "notes" +:+ nl +:+ "```" +:+ nl +:+ nl)],
             Some (Wrapped "write output /ro/out.md: "
                     (tables.EACCES "open" "/ro/out.md")))) as Hg
    by (vm_compute; reflexivity).
  refine (conj Hg _).
  exact (Generate_writes_output_paths_in_order _ _ _ _ _ _ Hg).
Defined.

(** [src/a.go] is there: [runInit] on it refuses and leaves it alone. *)
Lemma runInit_does_not_overwrite_witness :
  runInit "src/a.go" tables.project
  = (tables.project, [], "",
     Some (NewError ("config already exists: " +:+ "src/a.go")))
  ∧ ((is_ok (Stat tables.project (configPath "src/a.go")) = true →
      tables.project = tables.project ∧ ([] : list event) = [] ∧ "" = ""
      ∧ Some (NewError ("config already exists: " +:+ "src/a.go"))
        = Some (NewError ("config already exists: " +:+ configPath "src/a.go")))
     ∧ (writtenPaths [] = [] ∨ writtenPaths [] = [configPath "src/a.go"])
     ∧ (([] : list event) ≠ [] →
        ∃ err, Stat tables.project (configPath "src/a.go") = Err err
               ∧ is_not_exist err = true)
     ∧ ("src/a.go" = "" → configPath "src/a.go" = "config.yaml")).
Proof.
  assert (runInit "src/a.go" tables.project
          = (tables.project, [], "",
             Some (NewError ("config already exists: " +:+ "src/a.go")))) as Hr
    by (vm_compute; reflexivity).
  refine (conj Hr _).
  exact (runInit_does_not_overwrite "src/a.go" tables.project _ _ _ _ Hr).
Defined.

(** ** The pattern list as a normal form *)

Section trimming.
Variables (sp1 : ascii → bool) (sp2 : ascii → ascii → bool)
  (sp3 : ascii → ascii → ascii → bool).

#[local] Abbreviation trim := (trimWith sp1 sp2 sp3).

Lemma string_length_ind (P : string → Prop) :
  (∀ s, (∀ s', String.length s' < String.length s → P s') → P s) → ∀ s, P s.
Proof.
  intros Hstep s. remember (String.length s) as n eqn:Hn. revert s Hn.
  induction n as [n IH] using lt_wf_ind. intros s ->.
  apply Hstep. intros s' Hlt. by apply (IH (String.length s')).
Qed.

Lemma trimWith_cons c1 s1 :
  trim (String c1 s1)
  = if sp1 c1 then trim s1
    else match s1 with
         | EmptyString => String c1 s1
         | String c2 s2 =>
             if sp2 c1 c2 then trim s2
             else match s2 with
                  | EmptyString => String c1 s1
                  | String c3 s3 =>
                      if sp3 c1 c2 c3 then trim s3 else String c1 s1
                  end
         end.
Proof. done. Qed.

(** What is left is the end of the string. *)
Lemma trimWith_suffix s : ∃ front, s = front +:+ trim s.
Proof.
  induction s as [s IH] using string_length_ind.
  destruct s as [|c1 s1]; [by exists ""|]. rewrite trimWith_cons.
  destruct (sp1 c1).
  { destruct (IH s1) as [f Hf]; [simpl; lia|].
    exists (String c1 f). by rewrite append_String, <- Hf. }
  destruct s1 as [|c2 s2]; [by exists ""|].
  destruct (sp2 c1 c2).
  { destruct (IH s2) as [f Hf]; [simpl; lia|].
    exists (String c1 (String c2 f)). by rewrite !append_String, <- Hf. }
  destruct s2 as [|c3 s3]; [by exists ""|].
  destruct (sp3 c1 c2 c3); [|by exists ""].
  destruct (IH s3) as [f Hf]; [simpl; lia|].
  exists (String c1 (String c2 (String c3 f))).
  by rewrite !append_String, <- Hf.
Qed.

Lemma length_append (s1 s2 : string) :
  String.length (s1 +:+ s2) = String.length s1 + String.length s2.
Proof. induction s1 as [|c s1 IH]; [done|]. rewrite append_String. simpl. lia. Qed.

Lemma trimWith_length s : String.length (trim s) ≤ String.length s.
Proof.
  destruct (trimWith_suffix s) as [f Hf]. rewrite Hf at 2.
  rewrite length_append. lia.
Qed.

(** The scan stops where no white space is in front. *)
Lemma trimWith_fixed_iff s :
  trim s = s
  ↔ match s with
    | EmptyString => True
    | String c1 s1 =>
        sp1 c1 = false
        ∧ match s1 with
          | EmptyString => True
          | String c2 s2 =>
              sp2 c1 c2 = false
              ∧ match s2 with
                | EmptyString => True
                | String c3 _ => sp3 c1 c2 c3 = false
                end
          end
    end.
Proof.
  destruct s as [|c1 s1]; [done|]. rewrite trimWith_cons.
  destruct (sp1 c1).
  { split; [|by intros [? _]]. intros Heq.
    pose proof (trimWith_length s1) as Hlen. rewrite Heq in Hlen. simpl in Hlen. lia. }
  destruct s1 as [|c2 s2]; [done|].
  destruct (sp2 c1 c2).
  { split; [|by intros (_ & ? & _)]. intros Heq.
    pose proof (trimWith_length s2) as Hlen. rewrite Heq in Hlen. simpl in Hlen. lia. }
  destruct s2 as [|c3 s3]; [done|].
  destruct (sp3 c1 c2 c3); [|done].
  split; [|by intros (_ & _ & ?)]. intros Heq.
  pose proof (trimWith_length s3) as Hlen. rewrite Heq in Hlen. simpl in Hlen. lia.
Qed.

Lemma trimWith_idemp s : trim (trim s) = trim s.
Proof.
  induction s as [s IH] using string_length_ind.
  destruct s as [|c1 s1]; [done|]. rewrite (trimWith_cons c1 s1).
  destruct (sp1 c1) eqn:E1; [apply IH; simpl; lia|].
  destruct s1 as [|c2 s2]; [by rewrite trimWith_cons, E1|].
  destruct (sp2 c1 c2) eqn:E2; [apply IH; simpl; lia|].
  destruct s2 as [|c3 s3]; [by rewrite trimWith_cons, E1, E2|].
  destruct (sp3 c1 c2 c3) eqn:E3; [apply IH; simpl; lia|].
  by rewrite trimWith_cons, E1, E2, E3.
Qed.

(** A front part of a string with no white space in front has none. *)
Lemma trimWith_fixed_prefix s front back :
  trim s = s → s = front +:+ back → trim front = front.
Proof.
  rewrite !trimWith_fixed_iff. intros Hs ->.
  destruct front as [|c1 [|c2 [|c3 f]]]; simpl in *; naive_solver.
Qed.

End trimming.

Lemma TrimLeftSpace_cons c1 s1 :
  strings.TrimLeftSpace (String c1 s1)
  = if strings.ascii_space c1 then strings.TrimLeftSpace s1
    else match s1 with
         | EmptyString => String c1 s1
         | String c2 s2 =>
             if strings.space2 c1 c2 then strings.TrimLeftSpace s2
             else match s2 with
                  | EmptyString => String c1 s1
                  | String c3 s3 =>
                      if strings.space3 c1 c2 c3 then strings.TrimLeftSpace s3
                      else String c1 s1
                  end
         end.
Proof. done. Qed.

Lemma TrimLeftSpaceRev_cons c1 s1 :
  strings.TrimLeftSpaceRev (String c1 s1)
  = if strings.ascii_space c1 then strings.TrimLeftSpaceRev s1
    else match s1 with
         | EmptyString => String c1 s1
         | String c2 s2 =>
             if strings.space2 c2 c1 then strings.TrimLeftSpaceRev s2
             else match s2 with
                  | EmptyString => String c1 s1
                  | String c3 s3 =>
                      if strings.space3 c3 c2 c1 then strings.TrimLeftSpaceRev s3
                      else String c1 s1
                  end
         end.
Proof. done. Qed.

Lemma TrimLeftSpace_trimWith s :
  strings.TrimLeftSpace s
  = trimWith strings.ascii_space strings.space2 strings.space3 s.
Proof.
  induction s as [s IH] using string_length_ind.
  destruct s as [|c1 s1]; [done|]. rewrite TrimLeftSpace_cons, trimWith_cons.
  destruct (strings.ascii_space c1); [apply IH; simpl; lia|].
  destruct s1 as [|c2 s2]; [done|].
  destruct (strings.space2 c1 c2); [apply IH; simpl; lia|].
  destruct s2 as [|c3 s3]; [done|].
  destruct (strings.space3 c1 c2 c3); [apply IH; simpl; lia|done].
Qed.

Lemma TrimLeftSpaceRev_trimWith s :
  strings.TrimLeftSpaceRev s
  = trimWith strings.ascii_space (λ c1 c2, strings.space2 c2 c1)
      (λ c1 c2 c3, strings.space3 c3 c2 c1) s.
Proof.
  induction s as [s IH] using string_length_ind.
  destruct s as [|c1 s1]; [done|]. rewrite TrimLeftSpaceRev_cons, trimWith_cons.
  destruct (strings.ascii_space c1); [apply IH; simpl; lia|].
  destruct s1 as [|c2 s2]; [done|].
  destruct (strings.space2 c2 c1); [apply IH; simpl; lia|].
  destruct s2 as [|c3 s3]; [done|].
  destruct (strings.space3 c3 c2 c1); [apply IH; simpl; lia|done].
Qed.

Lemma chars_inj s1 s2 :
  String.list_ascii_of_string s1 = String.list_ascii_of_string s2 → s1 = s2.
Proof.
  intros Heq. rewrite <- (String.string_of_list_ascii_of_string s1), Heq.
  apply String.string_of_list_ascii_of_string.
Qed.

Lemma chars_rev_app s acc :
  String.list_ascii_of_string (String.rev_app s acc)
  = reverse (String.list_ascii_of_string s) ++ String.list_ascii_of_string acc.
Proof.
  revert acc. induction s as [|c s IH]; intros acc; simpl; [done|].
  by rewrite IH, reverse_cons, <- app_assoc.
Qed.

Lemma chars_rev s :
  String.list_ascii_of_string (String.rev s)
  = reverse (String.list_ascii_of_string s).
Proof. unfold String.rev. by rewrite chars_rev_app, app_nil_r. Qed.

Lemma rev_involutive s : String.rev (String.rev s) = s.
Proof. apply chars_inj. by rewrite !chars_rev, reverse_involutive. Qed.

Lemma rev_append s1 s2 :
  String.rev (s1 +:+ s2) = String.rev s2 +:+ String.rev s1.
Proof.
  apply chars_inj. by rewrite chars_rev, !chars_app, reverse_app, !chars_rev.
Qed.

(** [strings.TrimSpace] takes bytes away and adds none. *)
Lemma TrimSpace_chars c s :
  c ∈ String.list_ascii_of_string (strings.TrimSpace s) →
  c ∈ String.list_ascii_of_string s.
Proof.
  unfold strings.TrimSpace.
  rewrite TrimLeftSpace_trimWith, TrimLeftSpaceRev_trimWith.
  set (x := trimWith strings.ascii_space strings.space2 strings.space3 s).
  destruct (trimWith_suffix strings.ascii_space strings.space2 strings.space3 s)
    as [f Hf]. fold x in Hf.
  destruct (trimWith_suffix strings.ascii_space (λ c1 c2, strings.space2 c2 c1)
              (λ c1 c2 c3, strings.space3 c3 c2 c1) (String.rev x)) as [g Hg].
  rewrite chars_rev, elem_of_reverse. intros Hc.
  rewrite Hf, chars_app, elem_of_app. right.
  apply elem_of_reverse. rewrite <- chars_rev, Hg, chars_app, elem_of_app.
  by right.
Qed.

(** Trimming a trimmed string changes nothing. *)
Lemma TrimSpace_idemp s :
  strings.TrimSpace (strings.TrimSpace s) = strings.TrimSpace s.
Proof.
  unfold strings.TrimSpace.
  rewrite !TrimLeftSpace_trimWith, !TrimLeftSpaceRev_trimWith.
  set (tl := trimWith strings.ascii_space strings.space2 strings.space3).
  set (tr := trimWith strings.ascii_space (λ c1 c2, strings.space2 c2 c1)
               (λ c1 c2 c3, strings.space3 c3 c2 c1)).
  set (x := tl s). set (y := tr (String.rev x)).
  destruct (trimWith_suffix strings.ascii_space (λ c1 c2, strings.space2 c2 c1)
              (λ c1 c2 c3, strings.space3 c3 c2 c1) (String.rev x)) as [g Hg].
  fold tr in Hg. fold y in Hg.
  assert (x = String.rev y +:+ String.rev g) as Hx.
  { by rewrite <- rev_append, <- Hg, rev_involutive. }
  assert (tl (String.rev y) = String.rev y) as ->.
  { apply (trimWith_fixed_prefix _ _ _ x _ (String.rev g)); [|done].
    apply trimWith_idemp. }
  rewrite rev_involutive. unfold y, tr. by rewrite trimWith_idemp.
Qed.

Lemma Split_plain sep w :
  sep ∉ String.list_ascii_of_string w → strings.Split sep w = [w].
Proof.
  induction w as [|c w IH]; [done|]. simpl.
  intros [Hc Hw]%not_elem_of_cons.
  destruct (Ascii.eqb_spec c sep) as [->|_]; [done|]. by rewrite IH.
Qed.

Lemma Split_append sep w rest :
  sep ∉ String.list_ascii_of_string w →
  strings.Split sep (w +:+ String sep rest) = w :: strings.Split sep rest.
Proof.
  induction w as [|c w IH].
  - intros _. change ("" +:+ String sep rest) with (String sep rest).
    simpl. by rewrite Ascii.eqb_refl.
  - intros Hcw. rewrite append_String.
    change (String.list_ascii_of_string (String c w))
      with (c :: String.list_ascii_of_string w) in Hcw.
    apply not_elem_of_cons in Hcw as [Hc Hw].
    change (strings.Split sep (String c (w +:+ String sep rest)))
      with (if Ascii.eqb c sep
            then EmptyString :: strings.Split sep (w +:+ String sep rest)
            else match strings.Split sep (w +:+ String sep rest) with
                 | [] => [String c EmptyString]
                 | w' :: ws => String c w' :: ws
                 end).
    destruct (Ascii.eqb_spec c sep) as [->|_]; [done|]. by rewrite IH.
Qed.

(** Splitting what was joined gives the pieces back, when no piece holds
    the separator. *)
Lemma Split_of_Join sep ws :
  ws ≠ [] →
  Forall (λ w, sep ∉ String.list_ascii_of_string w) ws →
  strings.Split sep (strings.Join ws (String sep EmptyString)) = ws.
Proof.
  intros Hne Hall. induction Hall as [|w ws Hw Hws IH]; [done|].
  destruct ws as [|w' ws].
  - by apply Split_plain.
  - rewrite Join_cons2.
    change (String sep "" +:+ ?x) with (String sep x).
    rewrite Split_append by done. by rewrite IH.
Qed.

(** X16: the pattern list is in normal form.  No pattern of it is empty,
    none holds a comma, none has white space at either end; and joining the
    patterns with commas and splitting again gives the same list. *)
Theorem splitPatterns_normal_form (csv : string) :
  Forall (λ p, p ≠ ""
               ∧ ((","%char) ∉ String.list_ascii_of_string p)
               ∧ strings.TrimSpace p = p) (splitPatterns csv)
  ∧ splitPatterns (strings.Join (splitPatterns csv) ",") = splitPatterns csv.
Proof.
  assert (Forall (λ p, p ≠ ""
                       ∧ ((","%char) ∉ String.list_ascii_of_string p)
                       ∧ strings.TrimSpace p = p) (splitPatterns csv)) as Hall.
  { apply Forall_forall. intros p Hp. rewrite splitPatterns_spec in Hp.
    apply list_elem_of_filter in Hp as [Hne (w & -> & Hw)%list_elem_of_fmap].
    split_and!; [done| |apply TrimSpace_idemp].
    intros Hc%TrimSpace_chars.
    pose proof (Split_no_sep "," csv) as Hno. rewrite Forall_forall in Hno.
    by apply (Hno w). }
  split; [done|].
  destruct (splitPatterns csv) as [|p ps] eqn:E; [done|].
  rewrite splitPatterns_spec. unfold patterns_spec.
  rewrite (Split_of_Join "," (p :: ps)); [|done|].
  - clear E. induction Hall as [|q qs (Hne & _ & Htrim) _ IH]; [done|].
    rewrite fmap_cons, filter_cons, Htrim.
    destruct (decide (q ≠ "")); [|done]. by rewrite IH.
  - eapply Forall_impl; [exact Hall|]. by intros q (_ & ? & _).
Qed.

Example splitPatterns_normal_form_example :
  splitPatterns (strings.Join (splitPatterns " *.md , ,*.go") ",")
  = ["*.md"; "*.go"].
Proof. vm_compute; reflexivity. Qed.
